(** * QJsonArray: the implicitly shared JSON array of qtbase

    A shallow embedding of [src/corelib/serialization/qjsonarray.cpp].

    The handle [QJsonArray] holds one member, the shared pointer [a] to a
    reference-counted [QCborContainerPrivate].  Several handles may point at
    the same container, so the containers live in an explicit store and the
    member functions are state transformers over that store.

    Indices and sizes are [qsizetype] in the source and integers here.  The
    only arithmetic the source does on them is [size() + 1] and
    [size() - 1] on the size of a container that is held in memory, which
    cannot leave the range of [qsizetype]; the theorems quantify over all
    integers for an index. *)

From Stdlib Require Import ZArith List Bool Lia.
From stdpp Require Import base option list gmap strings.

Local Open Scope Z_scope.
Set Warnings "-register-all".

(** ** Elements *)

Module QJsonValue.

(** Modelled from the spec: the class [QJsonValue] (qjsonvalue.h and
    qjsonvalue.cpp are not among the sources at hand).  Section 3 gives
    it as the closed variant over Undefined, Null, Bool, Double, String,
    Array and Object.  The numeric payload is never inspected by the array
    code; it is kept as an integer code of the number. *)
Inductive t : Type :=
  | Undefined
  | Null
  | Bool (b : bool)
  | Double (d : Z)
  | String (s : string)
  | Array (vs : list t)
  | Object (members : list (string * t)).

(** Modelled from the spec: the enumeration [QJsonValue::Type], one tag
    per alternative of the variant. *)
Inductive Type_ : Set :=
  | TNull | TBool | TDouble | TString | TArray | TObject | TUndefined.

(** Modelled from the spec: [QJsonValue::type()], the tag of a value. *)
Definition type (v : t) : Type_ :=
  match v with
  | Undefined => TUndefined
  | Null => TNull
  | Bool _ => TBool
  | Double _ => TDouble
  | String _ => TString
  | Array _ => TArray
  | Object _ => TObject
  end.

(** [==] on the tags. *)
Definition Type_eqb (x y : Type_) : bool :=
  match x, y with
  | TNull, TNull | TBool, TBool | TDouble, TDouble | TString, TString
  | TArray, TArray | TObject, TObject | TUndefined, TUndefined => true
  | _, _ => false
  end.

(** Induction that reaches below the nested lists. *)
Section Induction.
Variable P : t -> Prop.
Hypothesis HUndefined : P Undefined.
Hypothesis HNull : P Null.
Hypothesis HBool : forall b, P (Bool b).
Hypothesis HDouble : forall d, P (Double d).
Hypothesis HString : forall s, P (String s).
Hypothesis HArray : forall vs, Forall P vs -> P (Array vs).
Hypothesis HObject :
  forall ms, Forall (fun kv => P (snd kv)) ms -> P (Object ms).

Fixpoint nested_ind (v : t) : P v :=
  match v with
  | Undefined => HUndefined
  | Null => HNull
  | Bool b => HBool b
  | Double d => HDouble d
  | String s => HString s
  | Array vs =>
      HArray vs
        ((fix each (l : list t) : Forall P l :=
            match l with
            | [] => List.Forall_nil P
            | x :: l' => @List.Forall_cons _ P x l' (nested_ind x) (each l')
            end) vs)
  | Object ms =>
      HObject ms
        ((fix each (l : list (string * t))
            : Forall (fun kv => P (snd kv)) l :=
            match l with
            | [] => List.Forall_nil _
            | kv :: l' =>
                @List.Forall_cons _ (fun kv => P (snd kv)) kv l'
                  (nested_ind (snd kv)) (each l')
            end) ms)
  end.
End Induction.

(** Modelled from the spec: [operator==] of [QJsonValue] (qjsonvalue.cpp),
    the value equality that [contains] uses: same alternative and same
    payload, containers member by member in order. *)
Fixpoint eqb (x y : t) {struct x} : bool :=
  match x, y with
  | Undefined, Undefined => true
  | Null, Null => true
  | Bool b1, Bool b2 => Bool.eqb b1 b2
  | Double d1, Double d2 => Z.eqb d1 d2
  | String s1, String s2 => String.eqb s1 s2
  | Array l1, Array l2 =>
      (fix all2 (l1 l2 : list t) {struct l1} : bool :=
         match l1, l2 with
         | [], [] => true
         | x1 :: l1', x2 :: l2' => eqb x1 x2 && all2 l1' l2'
         | _, _ => false
         end) l1 l2
  | Object m1, Object m2 =>
      (fix all2 (m1 m2 : list (string * t)) {struct m1} : bool :=
         match m1, m2 with
         | [], [] => true
         | (k1, x1) :: m1', (k2, x2) :: m2' =>
             String.eqb k1 k2 && eqb x1 x2 && all2 m1' m2'
         | _, _ => false
         end) m1 m2
  | _, _ => false
  end.

End QJsonValue.

Module QCborValue.

(** Modelled from the spec: the class [QCborValue] (qcborvalue.h), the
    encoded element that the storage backend holds.  Section 6 ("Element
    codec") says that every element value has an encoded representation and
    that there is an encoding of absence; the encoded variant mirrors the
    element variant.  [Null] is what the source writes [QCborValue(nullptr)]
    and [Undefined] the encoding of absence. *)
Inductive t : Type :=
  | Undefined
  | Null
  | Bool (b : bool)
  | Double (d : Z)
  | String (s : string)
  | Array (vs : list t)
  | Map (members : list (string * t)).

Section Induction.
Variable P : t -> Prop.
Hypothesis HUndefined : P Undefined.
Hypothesis HNull : P Null.
Hypothesis HBool : forall b, P (Bool b).
Hypothesis HDouble : forall d, P (Double d).
Hypothesis HString : forall s, P (String s).
Hypothesis HArray : forall vs, Forall P vs -> P (Array vs).
Hypothesis HMap :
  forall ms, Forall (fun kv => P (snd kv)) ms -> P (Map ms).

Fixpoint nested_ind (v : t) : P v :=
  match v with
  | Undefined => HUndefined
  | Null => HNull
  | Bool b => HBool b
  | Double d => HDouble d
  | String s => HString s
  | Array vs =>
      HArray vs
        ((fix each (l : list t) : Forall P l :=
            match l with
            | [] => List.Forall_nil P
            | x :: l' => @List.Forall_cons _ P x l' (nested_ind x) (each l')
            end) vs)
  | Map ms =>
      HMap ms
        ((fix each (l : list (string * t))
            : Forall (fun kv => P (snd kv)) l :=
            match l with
            | [] => List.Forall_nil _
            | kv :: l' =>
                @List.Forall_cons _ (fun kv => P (snd kv)) kv l'
                  (nested_ind (snd kv)) (each l')
            end) ms)
  end.
End Induction.

(** Modelled from the spec: [operator==] of [QCborValue].  Section 4.4:
    elements compare equal without coercion across the variant: same
    alternative, same payload, containers member by member in order. *)
Fixpoint eqb (x y : t) {struct x} : bool :=
  match x, y with
  | Undefined, Undefined => true
  | Null, Null => true
  | Bool b1, Bool b2 => Bool.eqb b1 b2
  | Double d1, Double d2 => Z.eqb d1 d2
  | String s1, String s2 => String.eqb s1 s2
  | Array l1, Array l2 =>
      (fix all2 (l1 l2 : list t) {struct l1} : bool :=
         match l1, l2 with
         | [], [] => true
         | x1 :: l1', x2 :: l2' => eqb x1 x2 && all2 l1' l2'
         | _, _ => false
         end) l1 l2
  | Map m1, Map m2 =>
      (fix all2 (m1 m2 : list (string * t)) {struct m1} : bool :=
         match m1, m2 with
         | [], [] => true
         | (k1, x1) :: m1', (k2, x2) :: m2' =>
             String.eqb k1 k2 && eqb x1 x2 && all2 m1' m2'
         | _, _ => false
         end) m1 m2
  | _, _ => false
  end.

(** Modelled from the spec: [operator!=] of [QCborValue], the negation of
    [operator==]. *)
Definition neqb (x y : t) : bool := negb (eqb x y).

(** Modelled from the spec: [QCborValue::fromJsonValue], the encoding half
    of the element codec of section 6. *)
Fixpoint fromJsonValue (v : QJsonValue.t) : t :=
  match v with
  | QJsonValue.Undefined => Undefined
  | QJsonValue.Null => Null
  | QJsonValue.Bool b => Bool b
  | QJsonValue.Double d => Double d
  | QJsonValue.String s => String s
  | QJsonValue.Array vs => Array (List.map fromJsonValue vs)
  | QJsonValue.Object ms =>
      Map (List.map (fun kv => (fst kv, fromJsonValue (snd kv))) ms)
  end.

End QCborValue.

Module QJsonPrivate.
Module Value.

(** Modelled from the spec: [QJsonPrivate::Value::fromTrustedCbor]
    (qjson_p.h), the decoding half of the element codec of section 6. *)
Fixpoint fromTrustedCbor (v : QCborValue.t) : QJsonValue.t :=
  match v with
  | QCborValue.Undefined => QJsonValue.Undefined
  | QCborValue.Null => QJsonValue.Null
  | QCborValue.Bool b => QJsonValue.Bool b
  | QCborValue.Double d => QJsonValue.Double d
  | QCborValue.String s => QJsonValue.String s
  | QCborValue.Array vs => QJsonValue.Array (List.map fromTrustedCbor vs)
  | QCborValue.Map ms =>
      QJsonValue.Object
        (List.map (fun kv => (fst kv, fromTrustedCbor (snd kv))) ms)
  end.
End Value.
End QJsonPrivate.

(** ** The store of shared containers *)

(** Addresses of heap-allocated containers. *)
Definition loc : Set := positive.

Module QCborContainerPrivate.

(** Modelled from the spec: the class [QCborContainerPrivate]
    (qcborvalue_p.h), the shared storage backend of sections 3 and 6: a
    reference count and an ordered sequence of encoded values. *)
Record t : Type := Container {
  ref : Z;
  elements : list QCborValue.t
}.

(** Modelled from the spec: [elements.size()], the [count()] of section 6. *)
Definition count (c : t) : Z := Z.of_nat (length (elements c)).

(** Modelled from the spec: [valueAt(index)] of section 6.  Here and in
    the operations below the index is pre-validated by the caller; outside
    the documented range there is no defined result, which is [None]. *)
Definition valueAt (i : Z) (c : t) : option QCborValue.t :=
  if (0 <=? i) && (i <? count c) then elements c !! Z.to_nat i else None.

(** Modelled from the spec: [insertAt(index, element)] of section 6; the
    elements from [index] on move one position up. *)
Definition insertAt (i : Z) (v : QCborValue.t) (c : t) : option t :=
  if (0 <=? i) && (i <=? count c)
  then Some (Container (ref c)
               (take (Z.to_nat i) (elements c) ++ v :: drop (Z.to_nat i) (elements c)))
  else None.

(** Modelled from the spec: [removeAt(index)] of section 6; the elements
    after [index] move one position down. *)
Definition removeAt (i : Z) (c : t) : option t :=
  if (0 <=? i) && (i <? count c)
  then Some (Container (ref c) (delete (Z.to_nat i) (elements c)))
  else None.

(** Modelled from the spec: [replaceAt(index, element)] of section 6. *)
Definition replaceAt (i : Z) (v : QCborValue.t) (c : t) : option t :=
  if (0 <=? i) && (i <? count c)
  then Some (Container (ref c) (<[Z.to_nat i := v]> (elements c)))
  else None.

(** Modelled from the spec: [extractAt(index)] of section 6.  It moves the
    encoded value out of slot [index] and hands it to the caller.  The slot
    itself stays in the sequence, emptied: [takeAt] in the source removes it
    afterwards with a separate [removeAt(i)] at the same index, and the two
    calls together are the "remove-and-return" that section 6 speaks of. *)
Definition extractAt (i : Z) (c : t) : option (QCborValue.t * t) :=
  if (0 <=? i) && (i <? count c)
  then match elements c !! Z.to_nat i with
       | Some v =>
           Some (v, Container (ref c)
                      (<[Z.to_nat i := QCborValue.Undefined]> (elements c)))
       | None => None
       end
  else None.

End QCborContainerPrivate.

Abbreviation Heap := (gmap loc QCborContainerPrivate.t).

(** ** Reading and updating the store *)

(** A [const] member function reads the store; a mutating one threads it.
    [None] stands for an execution without defined behaviour: a dangling or
    null pointer dereferenced, a failed [Q_ASSERT], a backend call with an
    index outside its contract. *)
Definition R (A : Type) : Type := Heap -> option A.
Definition M (A : Type) : Type := Heap -> option (A * Heap).

Definition ret {A : Type} (x : A) : M A := fun h => Some (x, h).

Definition bind {A B : Type} (m : M A) (k : A -> M B) : M B :=
  fun h => match m h with
           | Some (x, h') => k x h'
           | None => None
           end.

Definition fail {A : Type} : M A := fun _ => None.

Definition read {A : Type} (r : R A) : M A :=
  fun h => match r h with
           | Some x => Some (x, h)
           | None => None
           end.

Notation "'let!' x ':=' m 'in' k" := (bind m (fun x => k))
  (at level 10, x binder, m at level 100, k at level 200,
   format "'[v' 'let!'  x  ':='  m  'in' '/' k ']'").

(** [*p] for a raw pointer [p]. *)
Definition load (p : loc) : R QCborContainerPrivate.t := fun h => h !! p.

(** [*p = c] *)
Definition store (p : loc) (c : QCborContainerPrivate.t) : M unit :=
  fun h => match h !! p with
           | Some _ => Some (tt, <[p := c]> h)
           | None => None
           end.

(** [new QCborContainerPrivate(c)]; allocation does not fail here. *)
Definition new (c : QCborContainerPrivate.t) : M loc :=
  fun h => let p := fresh (dom h) in Some (p, <[p := c]> h).

(** [delete p] *)
Definition free (p : loc) : M unit :=
  fun h => match h !! p with
           | Some _ => Some (tt, delete p h)
           | None => None
           end.

(** [Q_ASSERT(cond)] *)
Definition Q_ASSERT (cond : bool) : M unit :=
  if cond then ret tt else fail.

(** The reference-counted pointer [QExplicitlySharedDataPointer]
    (qshareddata.h) that the member [a] is. *)
Module QExplicitlySharedDataPointer.

(** Modelled from the spec: [d->ref.ref()], one more holder of the backend
    (section 3: a copy increments the shared reference). *)
Definition ref_ref (p : loc) : M unit :=
  let! c := read (load p) in
  store p (QCborContainerPrivate.Container
             (QCborContainerPrivate.ref c + 1)
             (QCborContainerPrivate.elements c)).

(** Modelled from the spec: [d->ref.deref()], one holder less; true while
    holders remain. *)
Definition ref_deref (p : loc) : M bool :=
  let! c := read (load p) in
  let! _ := store p (QCborContainerPrivate.Container
                       (QCborContainerPrivate.ref c - 1)
                       (QCborContainerPrivate.elements c)) in
  ret (negb (QCborContainerPrivate.ref c - 1 =? 0)).

(** Modelled from the spec: copy construction of the pointer (section 3:
    "copied by incrementing the shared reference (no data copy)"). *)
Definition copy (o : option loc) : M (option loc) :=
  match o with
  | Some p => let! _ := ref_ref p in ret (Some p)
  | None => ret None
  end.

(** Modelled from the spec: giving up the reference held in [d] (section
    3: the backend is destroyed when its count reaches zero). *)
Definition release (d : option loc) : M unit :=
  match d with
  | Some p =>
      let! alive := ref_deref p in
      if alive then ret tt else free p
  | None => ret tt
  end.

(** Modelled from the spec: the assignment [d = o] of a raw pointer [o]:
    [o] gains a holder and the backend held before loses one (section 4.2);
    nothing happens when [o] is the pointer already held.  The result is
    the new value of [d]. *)
Definition assign (d o : option loc) : M (option loc) :=
  if decide (o = d) then ret d
  else
    let! _ := match o with
              | Some p => ref_ref p
              | None => ret tt
              end in
    let! _ := release d in
    ret o.

End QExplicitlySharedDataPointer.

(** Modelled from the spec: the static
    [QCborContainerPrivate::detach(d, reserved)] of sections 4.2 and 6.  A
    backend with reference count 1 is handed back as it is; otherwise its
    sequence is cloned into a freshly allocated backend, which nobody holds
    yet.  The capacity hint has no observable effect, and allocation does
    not fail here. *)
Definition QCborContainerPrivate_detach (d : loc) (reserved : Z)
  : M (option loc) :=
  let! c := read (load d) in
  if QCborContainerPrivate.ref c =? 1 then ret (Some d)
  else
    let! p := new (QCborContainerPrivate.Container
                     0 (QCborContainerPrivate.elements c)) in
    ret (Some p).

(** [a->f(...)] for a backend operation [f] that updates the container. *)
Definition call {A : Type} (d : option loc)
    (f : QCborContainerPrivate.t -> option (A * QCborContainerPrivate.t))
  : M A :=
  match d with
  | None => fail
  | Some p =>
      let! c := read (load p) in
      match f c with
      | None => fail
      | Some (x, c') => let! _ := store p c' in ret x
      end
  end.

(** ** The array handle *)

Module QJsonArray.

(** The one data member, [QExplicitlySharedDataPointer<QCborContainerPrivate> a]. *)
Record t : Type := Handle { a : option loc }.

(** [QJsonArray::QJsonArray() = default] *)
Definition QJsonArray : t := Handle None.

(** [QJsonArray::QJsonArray(const QJsonArray &other) = default] *)
Definition copy_construct (other : t) : M t :=
  let! d := QExplicitlySharedDataPointer.copy (a other) in
  ret (Handle d).

(** [QJsonArray::QJsonArray(QJsonArray &&other)]: [a(other.a)], then
    [other.a = nullptr].  The result is the new handle and [other]. *)
Definition move_construct (other : t) : M (t * t) :=
  let! d := QExplicitlySharedDataPointer.copy (a other) in
  let! o := QExplicitlySharedDataPointer.assign (a other) None in
  ret (Handle d, Handle o).

(** [QJsonArray::~QJsonArray() = default] *)
Definition destroy (this : t) : M unit :=
  QExplicitlySharedDataPointer.release (a this).

(** [qsizetype QJsonArray::size() const] *)
Definition size (this : t) : R Z :=
  fun h =>
    match a this with
    | Some p => c ← load p h; Some (QCborContainerPrivate.count c)
    | None => Some 0
    end.

(** [bool QJsonArray::isEmpty() const] *)
Definition isEmpty (this : t) : R bool :=
  fun h =>
    match a this with
    | None => Some true
    | Some p => c ← load p h; Some (QCborContainerPrivate.count c =? 0)
    end.

(** The guard [!a || i < 0 || i >= a->elements.size()] of [at], [removeAt]
    and [takeAt], evaluated left to right. *)
Definition out_of_bounds (this : t) (i : Z) : R bool :=
  fun h =>
    match a this with
    | None => Some true
    | Some p =>
        if i <? 0 then Some true
        else c ← load p h; Some (i >=? QCborContainerPrivate.count c)
    end.

(** [QJsonValue QJsonArray::at(qsizetype i) const]; [at] is a reserved
    word here, hence the underscore. *)
Definition at_ (this : t) (i : Z) : R QJsonValue.t :=
  fun h =>
    oob ← out_of_bounds this i h;
    if (oob : bool) then Some QJsonValue.Undefined
    else
      match a this with
      | None => None
      | Some p =>
          c ← load p h;
          v ← QCborContainerPrivate.valueAt i c;
          Some (QJsonPrivate.Value.fromTrustedCbor v)
      end.

(** [QJsonValue QJsonArray::first() const] *)
Definition first (this : t) : R QJsonValue.t := at_ this 0.

(** [QJsonValue QJsonArray::last() const] *)
Definition last (this : t) : R QJsonValue.t :=
  fun h =>
    i ← match a this with
        | Some p => c ← load p h; Some (QCborContainerPrivate.count c - 1)
        | None => Some 0
        end;
    at_ this i h.

(** [bool QJsonArray::detach(qsizetype reserve)]; the handle is returned
    next to the result because [a] is reassigned. *)
Definition detach (this : t) (reserve : Z) : M (bool * t) :=
  match a this with
  | None => ret (true, this)
  | Some p =>
      let! hint := (if reserve =? 0 then read (size this) else ret reserve) in
      let! d := QCborContainerPrivate_detach p hint in
      let! d' := QExplicitlySharedDataPointer.assign (a this) d in
      ret (bool_decide (is_Some d'), Handle d')
  end.

(** [void QJsonArray::insert(qsizetype i, const QJsonValue &value)] *)
Definition insert (this : t) (i : Z) (value : QJsonValue.t) : M t :=
  let! this :=
    match a this with
    | Some p =>
        let! c := read (load p) in
        let! r := detach this (QCborContainerPrivate.count c + 1) in
        ret (snd r)
    | None =>
        let! p := new (QCborContainerPrivate.Container 0 []) in
        let! d := QExplicitlySharedDataPointer.assign (a this) (Some p) in
        ret (Handle d)
    end in
  let! n := read (fun h => p ← a this; c ← load p h;
                           Some (QCborContainerPrivate.count c)) in
  let! _ := Q_ASSERT ((0 <=? i) && (i <=? n)) in
  let! _ := call (a this) (fun c =>
              c' ← QCborContainerPrivate.insertAt i
                     (if QJsonValue.Type_eqb (QJsonValue.type value)
                                             QJsonValue.TUndefined
                      then QCborValue.Null
                      else QCborValue.fromJsonValue value) c;
              Some (tt, c')) in
  ret this.

(** [void QJsonArray::prepend(const QJsonValue &value)] *)
Definition prepend (this : t) (value : QJsonValue.t) : M t :=
  insert this 0 value.

(** [void QJsonArray::append(const QJsonValue &value)] *)
Definition append (this : t) (value : QJsonValue.t) : M t :=
  let! i := read (fun h =>
                    match a this with
                    | Some p =>
                        c ← load p h; Some (QCborContainerPrivate.count c)
                    | None => Some 0
                    end) in
  insert this i value.

(** [void QJsonArray::removeAt(qsizetype i)] *)
Definition removeAt (this : t) (i : Z) : M t :=
  let! oob := read (out_of_bounds this i) in
  if (oob : bool) then ret this
  else
    let! r := detach this 0 in
    let this := snd r in
    let! _ := call (a this) (fun c =>
                c' ← QCborContainerPrivate.removeAt i c; Some (tt, c')) in
    ret this.

(** [QJsonValue QJsonArray::takeAt(qsizetype i)] *)
Definition takeAt (this : t) (i : Z) : M (QJsonValue.t * t) :=
  let! oob := read (out_of_bounds this i) in
  if (oob : bool) then ret (QJsonValue.Undefined, this)
  else
    let! r := detach this 0 in
    let this := snd r in
    let! e := call (a this) (QCborContainerPrivate.extractAt i) in
    let v := QJsonPrivate.Value.fromTrustedCbor e in
    let! _ := call (a this) (fun c =>
                c' ← QCborContainerPrivate.removeAt i c; Some (tt, c')) in
    ret (v, this).

(** [void QJsonArray::replace(qsizetype i, const QJsonValue &value)] *)
Definition replace (this : t) (i : Z) (value : QJsonValue.t) : M t :=
  let! oob := read (out_of_bounds this i) in
  let! _ := Q_ASSERT (negb oob) in
  let! r := detach this 0 in
  let this := snd r in
  let! _ := call (a this) (fun c =>
              c' ← QCborContainerPrivate.replaceAt i
                     (QCborValue.fromJsonValue value) c;
              Some (tt, c')) in
  ret this.

(** [QJsonArray::QJsonArray(std::initializer_list<QJsonValue> args)] *)
Definition from_initializer_list (args : list QJsonValue.t) : M t :=
  fold_left (fun m arg => let! this := m in append this arg)
            args (ret QJsonArray).

(** The loop of [comparesEqual], from index [i] for [n] more rounds. *)
Fixpoint comparesEqual_loop (l r : QCborContainerPrivate.t) (i : Z) (n : nat)
  : option bool :=
  match n with
  | O => Some true
  | S n' =>
      x ← QCborContainerPrivate.valueAt i l;
      y ← QCborContainerPrivate.valueAt i r;
      if QCborValue.neqb x y then Some false
      else comparesEqual_loop l r (i + 1) n'
  end.

(** [bool comparesEqual(const QJsonArray &lhs, const QJsonArray &rhs)] *)
Definition comparesEqual (lhs rhs : t) : R bool :=
  fun h =>
    if decide (a lhs = a rhs) then Some true
    else
      match a lhs, a rhs with
      | None, None => Some true
      | None, Some r =>
          c ← load r h; Some (QCborContainerPrivate.count c =? 0)
      | Some l, None =>
          c ← load l h; Some (QCborContainerPrivate.count c =? 0)
      | Some l, Some r =>
          cl ← load l h;
          cr ← load r h;
          if negb (QCborContainerPrivate.count cl
                   =? QCborContainerPrivate.count cr)
          then Some false
          else comparesEqual_loop cl cr 0
                 (Z.to_nat (QCborContainerPrivate.count cl))
      end.

(** Modelled from the spec: [begin()], [end()] and the iterators are
    declared in qjsonarray.h; section 4.3 gives the iteration as the finite
    sequence of the elements in storage order, the element at a position
    being the one [at] reads there. *)
Fixpoint iterate (this : t) (i : Z) (n : nat) : R (list QJsonValue.t) :=
  fun h =>
    match n with
    | O => Some []
    | S n' => v ← at_ this i h; vs ← iterate this (i + 1) n' h; Some (v :: vs)
    end.

(** Modelled from the spec: the range from [begin()] to [end()], that is
    the positions 0 to [size() - 1] (section 4.3). *)
Definition range (this : t) : R (list QJsonValue.t) :=
  fun h => n ← size this h; iterate this 0 (Z.to_nat n) h.

(** The combiner of [qHashRange] and the hash of one element
    ([qHash(QJsonValue)]) are not given by the sources at hand and are left
    open; [size_t] values are integers, their wrap-around being the
    combiner's business. *)
Section Hashing.
Variable combine : Z -> Z -> Z.
Variable qHashValue : QJsonValue.t -> Z.

(** Modelled from the spec: [qHashRange] (qhashfunctions.h) combines the
    hashes of the elements of a range in order, starting from the seed
    (section 4.4). *)
Definition qHashRange (vs : list QJsonValue.t) (seed : Z) : Z :=
  fold_left (fun acc v => combine acc (qHashValue v)) vs seed.

(** [size_t qHash(const QJsonArray &array, size_t seed)] *)
Definition qHash (array : t) (seed : Z) : R Z :=
  fun h => vs ← range array h; Some (qHashRange vs seed).
End Hashing.

(** [QJsonArray &QJsonArray::operator =(const QJsonArray &other) = default]:
    the member [a] is assigned from [other.a]. *)
Definition assign (this other : t) : M t :=
  let! d := QExplicitlySharedDataPointer.assign (a this) (a other) in
  ret (Handle d).

(** [QJsonArray QJsonArray::fromStringList(const QStringList &list)] *)
Definition fromStringList (list : list string) : M t :=
  fold_left (fun m s => let! array := m in append array (QJsonValue.String s))
            list (ret QJsonArray).

(** The loop of [contains], from index [i] for [n] more rounds. *)
Fixpoint contains_loop (this : t) (value : QJsonValue.t) (i : Z) (n : nat)
  : R bool :=
  fun h =>
    match n with
    | O => Some false
    | S n' =>
        v ← at_ this i h;
        if QJsonValue.eqb v value then Some true
        else contains_loop this value (i + 1) n' h
    end.

(** [bool QJsonArray::contains(const QJsonValue &value) const]; no call in
    the loop changes [size()], which is read once here. *)
Definition contains (this : t) (value : QJsonValue.t) : R bool :=
  fun h => n ← size this h; contains_loop this value 0 (Z.to_nat n) h.

(** [QJsonValue QJsonArray::operator[](qsizetype i) const] *)
Definition index (this : t) (i : Z) : R QJsonValue.t := at_ this i.

End QJsonArray.

(** ** Abstract view of the store *)

(** The sequence of encoded elements a handle stands for. *)
Definition contents (h : Heap) (this : QJsonArray.t)
  : option (list QCborValue.t) :=
  match QJsonArray.a this with
  | None => Some []
  | Some p => QCborContainerPrivate.elements <$> h !! p
  end.

(** A handle that owns a reference: the backend it points at is allocated
    and counts at least this reference. *)
Definition owns (h : Heap) (this : QJsonArray.t) : bool :=
  match QJsonArray.a this with
  | None => true
  | Some p =>
      match h !! p with
      | Some c => 1 <=? QCborContainerPrivate.ref c
      | None => false
      end
  end.

(** Where [detach] leaves a handle that points at [p], and the store after
    it: nothing changes for a count of 1; otherwise a clone at a fresh
    address that counts one reference, the original counting one less. *)
Definition detached (h : Heap) (p : loc) (c : QCborContainerPrivate.t)
  : loc * Heap :=
  if QCborContainerPrivate.ref c =? 1 then (p, h)
  else
    let p' := fresh (dom h) in
    (p', <[p := QCborContainerPrivate.Container
                  (QCborContainerPrivate.ref c - 1)
                  (QCborContainerPrivate.elements c)]>
           (<[p' := QCborContainerPrivate.Container
                      1 (QCborContainerPrivate.elements c)]> h)).

(** An edit of the handle [this] leaves a backend alone when the handle
    does not point at it or when the backend is shared. *)
Definition frame (h h' : Heap) (this : QJsonArray.t) : Prop :=
  forall q cq,
    h !! q = Some cq ->
    Some q <> QJsonArray.a this \/ QCborContainerPrivate.ref cq <> 1 ->
    exists cq',
      h' !! q = Some cq' /\
      QCborContainerPrivate.elements cq' = QCborContainerPrivate.elements cq /\
      QCborContainerPrivate.ref cq - 1 <= QCborContainerPrivate.ref cq'.

(** The mutating member functions, as data. *)
Inductive Mutation : Type :=
| Insert (i : Z) (v : QJsonValue.t)
| Append (v : QJsonValue.t)
| Prepend (v : QJsonValue.t)
| RemoveAt (i : Z)
| TakeAt (i : Z)
| Replace (i : Z) (v : QJsonValue.t).

Definition mutate (op : Mutation) (this : QJsonArray.t) : M QJsonArray.t :=
  match op with
  | Insert i v => QJsonArray.insert this i v
  | Append v => QJsonArray.append this v
  | Prepend v => QJsonArray.prepend this v
  | RemoveAt i => QJsonArray.removeAt this i
  | TakeAt i => let! r := QJsonArray.takeAt this i in ret (snd r)
  | Replace i v => QJsonArray.replace this i v
  end.

(** The index contract that the source documents (and asserts) for an
    array of [n] elements; [removeAt] and [takeAt] guard themselves. *)
Definition admissible (op : Mutation) (n : Z) : bool :=
  match op with
  | Insert i _ => (0 <=? i) && (i <=? n)
  | Replace i _ => (0 <=? i) && (i <? n)
  | Append _ | Prepend _ | RemoveAt _ | TakeAt _ => true
  end.

(** What [insert] stores for a value. *)
Definition stored (v : QJsonValue.t) : QJsonValue.t :=
  match v with
  | QJsonValue.Undefined => QJsonValue.Null
  | _ => v
  end.

(** The edit an operation stands for, on the sequence of values. *)
Definition effect (op : Mutation) (vs : list QJsonValue.t)
  : list QJsonValue.t :=
  match op with
  | Insert i v => take (Z.to_nat i) vs ++ stored v :: drop (Z.to_nat i) vs
  | Append v => vs ++ [stored v]
  | Prepend v => stored v :: vs
  | RemoveAt i | TakeAt i =>
      if (0 <=? i) && (i <? Z.of_nat (length vs))
      then delete (Z.to_nat i) vs else vs
  | Replace i v => <[Z.to_nat i := v]> vs
  end.

(** The value [at] reads at index [i] of a sequence of encoded elements. *)
Definition value_at (l : list QCborValue.t) (i : Z) : QJsonValue.t :=
  if (0 <=? i) && (i <? Z.of_nat (length l))
  then match l !! Z.to_nat i with
       | Some e => QJsonPrivate.Value.fromTrustedCbor e
       | None => QJsonValue.Undefined
       end
  else QJsonValue.Undefined.

(** The handle address and the store after [detach] followed by a backend
    call that turns the sequence into [l']. *)
Definition edited (h : Heap) (p : loc) (c : QCborContainerPrivate.t)
    (l' : list QCborValue.t) : loc * Heap :=
  (fst (detached h p c),
   <[fst (detached h p c) := QCborContainerPrivate.Container 1 l']>
     (snd (detached h p c))).

(** ** Concrete stores used in the examples *)

(** One array [[1, 2]] held by one handle. *)
Definition store_1_2 : Heap :=
  {[ 1%positive :=
       QCborContainerPrivate.Container
         1 [QCborValue.Double 1; QCborValue.Double 2] ]}.

(** One array [[1, 2, 3]] held by one handle. *)
Definition store_1_2_3 : Heap :=
  {[ 1%positive :=
       QCborContainerPrivate.Container
         1 [QCborValue.Double 1; QCborValue.Double 2; QCborValue.Double 3] ]}.

(** The handle of the array in those stores. *)
Definition handle_1 : QJsonArray.t := QJsonArray.Handle (Some 1%positive).

(** ** Statements under test *)

(** "[insert(i, v)] followed by [at(i)] returns [v], and the size increases
    by exactly 1", at one array, index and value. *)
Definition insert_reads_back (h : Heap) (this : QJsonArray.t) (i : Z)
    (v : QJsonValue.t) : Prop :=
  exists n this' h',
    QJsonArray.size this h = Some n /\
    QJsonArray.insert this i v h = Some (this', h') /\
    QJsonArray.at_ this' i h' = Some v /\
    QJsonArray.size this' h' = Some (n + 1).

(** Two backends that hold [[1, 2]] each, and a second handle. *)
Definition store_twice_1_2 : Heap :=
  <[ 2%positive :=
       QCborContainerPrivate.Container
         1 [QCborValue.Double 1; QCborValue.Double 2] ]> store_1_2.

Definition handle_2 : QJsonArray.t := QJsonArray.Handle (Some 2%positive).

(** A backend that holds the empty sequence. *)
Definition store_empty_backend : Heap :=
  {[ 1%positive := QCborContainerPrivate.Container 1 [] ]}.

(** A combiner and an element hash to run [qHash] with. *)
Definition sample_combine (seed x : Z) : Z := (seed * 31 + x) mod 2 ^ 64.

Definition sample_qHashValue (v : QJsonValue.t) : Z :=
  match v with
  | QJsonValue.Double d => d mod 2 ^ 64
  | QJsonValue.Bool b => if b then 1 else 0
  | _ => 0
  end.

(** No element of the sequence is Undefined. *)
Definition all_defined (vs : list QJsonValue.t) : Prop :=
  Forall (fun v => v <> QJsonValue.Undefined) vs.

(** An operation that cannot store Undefined: everything but a [replace]
    by Undefined. *)
Definition stores_defined (op : Mutation) : bool :=
  match op with
  | Replace _ v =>
      negb (QJsonValue.Type_eqb (QJsonValue.type v) QJsonValue.TUndefined)
  | _ => true
  end.

(** Two handles on one backend that counts both. *)
Definition store_shared : Heap :=
  {[ 1%positive :=
       QCborContainerPrivate.Container
         2 [QCborValue.Double 1; QCborValue.Double 2] ]}.

(** * Properties *)

(** ** The element codec *)

Lemma fromTrustedCbor_fromJsonValue (v : QJsonValue.t) :
  QJsonPrivate.Value.fromTrustedCbor (QCborValue.fromJsonValue v) = v.
Proof.
  induction v as [| | b | d | s | vs IH | ms IH] using QJsonValue.nested_ind;
    simpl; try reflexivity.
  - f_equal. induction IH as [|x l Hx _ IHl]; simpl; [reflexivity|].
    by rewrite Hx, IHl.
  - f_equal. induction IH as [|[k x] l Hx _ IHl]; simpl; [reflexivity|].
    simpl in Hx. by rewrite Hx, IHl.
Qed.

Lemma fromJsonValue_fromTrustedCbor (e : QCborValue.t) :
  QCborValue.fromJsonValue (QJsonPrivate.Value.fromTrustedCbor e) = e.
Proof.
  induction e as [| | b | d | s | vs IH | ms IH] using QCborValue.nested_ind;
    simpl; try reflexivity.
  - f_equal. induction IH as [|x l Hx _ IHl]; simpl; [reflexivity|].
    by rewrite Hx, IHl.
  - f_equal. induction IH as [|[k x] l Hx _ IHl]; simpl; [reflexivity|].
    simpl in Hx. by rewrite Hx, IHl.
Qed.

Lemma fromTrustedCbor_inj (x y : QCborValue.t) :
  QJsonPrivate.Value.fromTrustedCbor x = QJsonPrivate.Value.fromTrustedCbor y ->
  x = y.
Proof.
  intros H. rewrite <- (fromJsonValue_fromTrustedCbor x),
    <- (fromJsonValue_fromTrustedCbor y). by rewrite H.
Qed.

Lemma QCborValue_eqb_eq (x y : QCborValue.t) :
  QCborValue.eqb x y = true <-> x = y.
Proof.
  revert y.
  induction x as [| | b | d | s | vs IH | ms IH] using QCborValue.nested_ind;
    intros [| | b' | d' | s' | vs' | ms']; simpl;
    try (split; [discriminate | discriminate]); try tauto.
  - rewrite Bool.eqb_true_iff. split; congruence.
  - rewrite Z.eqb_eq. split; congruence.
  - rewrite String.eqb_eq. split; congruence.
  - revert vs'. induction IH as [|x l Hx _ IHl]; intros [|x' l'];
      try (split; [discriminate | discriminate]); [tauto|].
    rewrite andb_true_iff, Hx, IHl. split.
    + intros [-> E]. by inversion E.
    + intros E. inversion E. by subst.
  - revert ms'. induction IH as [|[k x] l Hx _ IHl]; intros [|[k' x'] l'];
      try (split; [discriminate | discriminate]); [tauto|].
    simpl in Hx.
    rewrite !andb_true_iff, String.eqb_eq, Hx, IHl. split.
    + intros [[-> ->] E]. by inversion E.
    + intros E. inversion E. by subst.
Qed.

Lemma QCborValue_neqb_false (x y : QCborValue.t) :
  QCborValue.neqb x y = false <-> x = y.
Proof.
  unfold QCborValue.neqb. rewrite negb_false_iff. apply QCborValue_eqb_eq.
Qed.

(** Boolean comparisons in the hypotheses, turned into propositions. *)
Ltac bools :=
  repeat match goal with
    | H : _ && _ = true |- _ => apply andb_true_iff in H; destruct H
    | H : _ && _ = false |- _ => apply andb_false_iff in H; destruct H
    | H : (_ <=? _) = true |- _ => apply Z.leb_le in H
    | H : (_ <=? _) = false |- _ => apply Z.leb_gt in H
    | H : (_ <? _) = true |- _ => apply Z.ltb_lt in H
    | H : (_ <? _) = false |- _ => apply Z.ltb_ge in H
    | H : (_ =? _) = true |- _ => apply Z.eqb_eq in H
    | H : (_ =? _) = false |- _ => apply Z.eqb_neq in H
    end.

(** ** Running the store operations *)

Lemma Container_eta (c : QCborContainerPrivate.t) :
  QCborContainerPrivate.Container (QCborContainerPrivate.ref c)
    (QCborContainerPrivate.elements c) = c.
Proof. by destruct c. Qed.

Lemma bind_run {A B : Type} (m : M A) (k : A -> M B) (h h' : Heap) (x : A) :
  m h = Some (x, h') -> bind m k h = k x h'.
Proof. unfold bind. by intros ->. Qed.

Lemma read_run {A : Type} (r : R A) (h : Heap) (x : A) :
  r h = Some x -> read r h = Some (x, h).
Proof. unfold read. by intros ->. Qed.

Lemma store_run (p : loc) (c c0 : QCborContainerPrivate.t) (h : Heap) :
  h !! p = Some c0 -> store p c h = Some (tt, <[p := c]> h).
Proof. unfold store. by intros ->. Qed.

Lemma call_run {A : Type} (p : loc) (c c' : QCborContainerPrivate.t) (x : A)
    (f : QCborContainerPrivate.t -> option (A * QCborContainerPrivate.t))
    (h : Heap) :
  h !! p = Some c -> f c = Some (x, c') ->
  call (Some p) f h = Some (x, <[p := c']> h).
Proof.
  intros Hp Hf. unfold call.
  rewrite (bind_run _ _ h h c) by (apply read_run; exact Hp).
  rewrite Hf. by rewrite (bind_run _ _ h (<[p := c']> h) tt)
    by (eapply store_run; exact Hp).
Qed.

Lemma ref_ref_run (p : loc) (c : QCborContainerPrivate.t) (h : Heap) :
  h !! p = Some c ->
  QExplicitlySharedDataPointer.ref_ref p h =
  Some (tt, <[p := QCborContainerPrivate.Container
                     (QCborContainerPrivate.ref c + 1)
                     (QCborContainerPrivate.elements c)]> h).
Proof.
  intros Hp. unfold QExplicitlySharedDataPointer.ref_ref.
  rewrite (bind_run _ _ h h c) by (apply read_run; exact Hp).
  eapply store_run; exact Hp.
Qed.

Lemma release_shared (p : loc) (c : QCborContainerPrivate.t) (h : Heap) :
  h !! p = Some c -> QCborContainerPrivate.ref c <> 1 ->
  QExplicitlySharedDataPointer.release (Some p) h =
  Some (tt, <[p := QCborContainerPrivate.Container
                     (QCborContainerPrivate.ref c - 1)
                     (QCborContainerPrivate.elements c)]> h).
Proof.
  intros Hp Hc.
  unfold QExplicitlySharedDataPointer.release,
    QExplicitlySharedDataPointer.ref_deref.
  unfold bind at 1. unfold bind at 1.
  rewrite (read_run _ h c) by exact Hp.
  unfold bind at 1. erewrite store_run by exact Hp.
  unfold ret at 1.
  destruct (QCborContainerPrivate.ref c - 1 =? 0) eqn:E; [lia | reflexivity].
Qed.

Lemma assign_shared (p p' : loc) (c c' : QCborContainerPrivate.t) (h : Heap) :
  p' <> p -> h !! p = Some c -> h !! p' = Some c' ->
  QCborContainerPrivate.ref c <> 1 ->
  QExplicitlySharedDataPointer.assign (Some p) (Some p') h =
  Some (Some p',
        <[p := QCborContainerPrivate.Container
                 (QCborContainerPrivate.ref c - 1)
                 (QCborContainerPrivate.elements c)]>
          (<[p' := QCborContainerPrivate.Container
                     (QCborContainerPrivate.ref c' + 1)
                     (QCborContainerPrivate.elements c')]> h)).
Proof.
  intros Hne Hp Hp' Hc. unfold QExplicitlySharedDataPointer.assign.
  rewrite decide_False by congruence.
  erewrite bind_run by (apply ref_ref_run; exact Hp').
  erewrite bind_run; [reflexivity|].
  apply release_shared; [|exact Hc]. by rewrite lookup_insert_ne.
Qed.

Lemma fresh_lookup (h : Heap) : h !! fresh (dom h) = None.
Proof. apply not_elem_of_dom. apply is_fresh. Qed.

Lemma detach_run (this : QJsonArray.t) (p : loc)
    (c : QCborContainerPrivate.t) (rsv : Z) (h : Heap) :
  QJsonArray.a this = Some p -> h !! p = Some c ->
  QJsonArray.detach this rsv h =
  Some ((true, QJsonArray.Handle (Some (fst (detached h p c)))),
        snd (detached h p c)).
Proof.
  intros Ha Hp. unfold QJsonArray.detach, detached. rewrite Ha.
  erewrite (bind_run _ _ h h (if rsv =? 0
                              then QCborContainerPrivate.count c else rsv));
    cycle 1.
  { destruct (rsv =? 0); [|reflexivity].
    apply read_run. unfold QJsonArray.size, load. by rewrite Ha, Hp. }
  unfold QCborContainerPrivate_detach.
  destruct (QCborContainerPrivate.ref c =? 1) eqn:E.
  - erewrite bind_run; cycle 1.
    { erewrite bind_run by (apply read_run; exact Hp). rewrite E. reflexivity. }
    unfold QExplicitlySharedDataPointer.assign.
    rewrite decide_True by reflexivity. reflexivity.
  - apply Z.eqb_neq in E.
    pose proof (fresh_lookup h) as Hf.
    erewrite bind_run; cycle 1.
    { erewrite bind_run by (apply read_run; exact Hp).
      apply Z.eqb_neq in E. rewrite E. unfold bind, new, ret. reflexivity. }
    set (p' := fresh (dom h)) in *.
    assert (p' <> p) as Hne by (intros ->; congruence).
    erewrite bind_run; cycle 1.
    { eapply assign_shared; [exact Hne| |apply lookup_insert_eq|exact E].
      by rewrite lookup_insert_ne. }
    rewrite insert_insert_eq. reflexivity.
Qed.

Lemma detached_lookup (p : loc) (c : QCborContainerPrivate.t) (h : Heap) :
  h !! p = Some c ->
  snd (detached h p c) !! fst (detached h p c) =
  Some (QCborContainerPrivate.Container 1 (QCborContainerPrivate.elements c)).
Proof.
  intros Hp. unfold detached.
  destruct (QCborContainerPrivate.ref c =? 1) eqn:E; simpl.
  - apply Z.eqb_eq in E. rewrite Hp, <- E. by rewrite Container_eta.
  - pose proof (fresh_lookup h) as Hf.
    rewrite lookup_insert_ne by (intros ->; congruence).
    apply lookup_insert_eq.
Qed.

Lemma detached_frame (p q : loc) (c cq : QCborContainerPrivate.t) (h : Heap) :
  h !! p = Some c -> h !! q = Some cq ->
  q <> p \/ QCborContainerPrivate.ref cq <> 1 ->
  q <> fst (detached h p c) /\
  exists cq',
    snd (detached h p c) !! q = Some cq' /\
    QCborContainerPrivate.elements cq' = QCborContainerPrivate.elements cq /\
    QCborContainerPrivate.ref cq - 1 <= QCborContainerPrivate.ref cq'.
Proof.
  intros Hp Hq Hor. unfold detached.
  destruct (QCborContainerPrivate.ref c =? 1) eqn:E; simpl.
  - apply Z.eqb_eq in E. split.
    + intros ->. destruct Hor as [?|Hr]; [done|]. congruence.
    + exists cq. split; [done|]. split; [done|lia].
  - pose proof (fresh_lookup h) as Hf. split; [intros ->; congruence|].
    destruct (decide (q = p)) as [->|Hne].
    + rewrite lookup_insert_eq. eexists; split; [done|]. simpl.
      replace cq with c by congruence. split; [done|lia].
    + rewrite lookup_insert_ne by done.
      rewrite lookup_insert_ne by (intros <-; congruence).
      exists cq. split; [done|]. split; [done|lia].
Qed.

(** ** The read operations, in terms of the contents *)

Lemma contents_inv (h : Heap) (this : QJsonArray.t) (l : list QCborValue.t) :
  contents h this = Some l ->
  (QJsonArray.a this = None /\ l = []) \/
  (exists p c, QJsonArray.a this = Some p /\ h !! p = Some c /\
               QCborContainerPrivate.elements c = l).
Proof.
  unfold contents. destruct (QJsonArray.a this) as [p|].
  - destruct (h !! p) as [c|] eqn:Hp; simpl; [|discriminate].
    intros [= <-]. right. by exists p, c.
  - intros [= <-]. by left.
Qed.

Lemma contents_owns (h : Heap) (this : QJsonArray.t) :
  owns h this = true -> exists l, contents h this = Some l.
Proof.
  unfold owns, contents. destruct (QJsonArray.a this) as [p|].
  - destruct (h !! p) as [c|]; [|discriminate]. intros _. by eexists.
  - intros _. by eexists.
Qed.

Lemma size_contents (h : Heap) (this : QJsonArray.t) (l : list QCborValue.t) :
  contents h this = Some l ->
  QJsonArray.size this h = Some (Z.of_nat (length l)).
Proof.
  intros [[Ha ->]|(p & c & Ha & Hp & <-)]%contents_inv;
    unfold QJsonArray.size, load; rewrite Ha; [reflexivity|].
  by rewrite Hp.
Qed.

Lemma isEmpty_contents (h : Heap) (this : QJsonArray.t)
    (l : list QCborValue.t) :
  contents h this = Some l ->
  QJsonArray.isEmpty this h = Some (Z.of_nat (length l) =? 0).
Proof.
  intros [[Ha ->]|(p & c & Ha & Hp & <-)]%contents_inv;
    unfold QJsonArray.isEmpty, load; rewrite Ha; [reflexivity|].
  by rewrite Hp.
Qed.

Lemma out_of_bounds_contents (h : Heap) (this : QJsonArray.t)
    (l : list QCborValue.t) (i : Z) :
  contents h this = Some l ->
  QJsonArray.out_of_bounds this i h =
  Some (negb ((0 <=? i) && (i <? Z.of_nat (length l)))).
Proof.
  intros [[Ha ->]|(p & c & Ha & Hp & <-)]%contents_inv;
    unfold QJsonArray.out_of_bounds, load; rewrite Ha.
  - simpl. change (Z.of_nat 0) with 0. f_equal.
    destruct (0 <=? i) eqn:E1, (i <? 0) eqn:E2; simpl; try reflexivity; lia.
  - rewrite Hp. simpl. unfold QCborContainerPrivate.count.
    destruct (i <? 0) eqn:E1.
    + f_equal. destruct (0 <=? i) eqn:E2; simpl; [lia | reflexivity].
    + f_equal. destruct (0 <=? i) eqn:E2; simpl; [|lia].
      rewrite Z.geb_leb, Z.ltb_antisym. by rewrite negb_involutive.
Qed.

Lemma at_contents (h : Heap) (this : QJsonArray.t) (l : list QCborValue.t)
    (i : Z) :
  contents h this = Some l -> QJsonArray.at_ this i h = Some (value_at l i).
Proof.
  intros Hc. unfold QJsonArray.at_, value_at.
  rewrite (out_of_bounds_contents h this l i Hc). simpl.
  destruct ((0 <=? i) && (i <? Z.of_nat (length l))) eqn:E; simpl;
    [|reflexivity].
  destruct (contents_inv _ _ _ Hc) as [[Ha ->]|(p & c & Ha & Hp & <-)].
  - bools. simpl in *. lia.
  - rewrite Ha. unfold load. rewrite Hp. simpl.
    unfold QCborContainerPrivate.valueAt, QCborContainerPrivate.count.
    rewrite E.
    destruct (QCborContainerPrivate.elements c !! Z.to_nat i) as [e|] eqn:He;
      [reflexivity|].
    apply lookup_ge_None in He. lia.
Qed.

Lemma value_at_lookup (l : list QCborValue.t) (i : nat) (e : QCborValue.t) :
  l !! i = Some e ->
  value_at l (Z.of_nat i) = QJsonPrivate.Value.fromTrustedCbor e.
Proof.
  intros He. unfold value_at. rewrite Nat2Z.id, He.
  apply lookup_lt_Some in He.
  destruct (0 <=? Z.of_nat i) eqn:E1; [|lia].
  destruct (Z.of_nat i <? Z.of_nat (length l)) eqn:E2; [reflexivity|lia].
Qed.

Lemma value_at_outside (l : list QCborValue.t) (i : Z) :
  i < 0 \/ Z.of_nat (length l) <= i -> value_at l i = QJsonValue.Undefined.
Proof.
  intros Hi. unfold value_at.
  destruct (0 <=? i) eqn:E1; [|reflexivity].
  destruct (i <? Z.of_nat (length l)) eqn:E2; [lia|reflexivity].
Qed.

Lemma iterate_contents (h : Heap) (this : QJsonArray.t)
    (l : list QCborValue.t) (n k : nat) :
  contents h this = Some l -> (k + n <= length l)%nat ->
  QJsonArray.iterate this (Z.of_nat k) n h =
  Some (QJsonPrivate.Value.fromTrustedCbor <$> take n (drop k l)).
Proof.
  intros Hc. revert k. induction n as [|n IH]; intros k Hk; simpl.
  - reflexivity.
  - rewrite (at_contents h this l _ Hc).
    destruct (l !! k) as [e|] eqn:He;
      [|apply lookup_ge_None in He; lia].
    rewrite (value_at_lookup _ _ _ He). simpl.
    replace (Z.of_nat k + 1) with (Z.of_nat (S k)) by lia.
    rewrite IH by lia. simpl.
    rewrite (drop_S _ _ _ He). reflexivity.
Qed.

Lemma range_contents (h : Heap) (this : QJsonArray.t)
    (l : list QCborValue.t) :
  contents h this = Some l ->
  QJsonArray.range this h =
  Some (QJsonPrivate.Value.fromTrustedCbor <$> l).
Proof.
  intros Hc. unfold QJsonArray.range.
  rewrite (size_contents h this l Hc). simpl. rewrite Nat2Z.id.
  change 0 with (Z.of_nat 0).
  rewrite (iterate_contents h this l _ 0 Hc) by lia.
  by rewrite drop_0, firstn_all.
Qed.

(** ** The mutating operations, in terms of the contents *)

Lemma frame_refl (h : Heap) (this : QJsonArray.t) : frame h h this.
Proof. intros q cq Hq _. exists cq. split; [done|]. split; [done|lia]. Qed.

Lemma frame_contents (h h' : Heap) (this other : QJsonArray.t)
    (l : list QCborValue.t) :
  frame h h' this -> contents h other = Some l ->
  (forall p c, QJsonArray.a other = Some p -> h !! p = Some c ->
               QJsonArray.a this <> Some p \/ QCborContainerPrivate.ref c <> 1) ->
  contents h' other = Some l.
Proof.
  intros Hfr Hc Hsh.
  destruct (contents_inv _ _ _ Hc) as [[Ha ->]|(p & c & Ha & Hp & <-)];
    unfold contents; rewrite Ha; [reflexivity|].
  destruct (Hfr p c Hp) as (c' & Hp' & He & _).
  { destruct (Hsh p c Ha Hp) as [?|?]; [left; congruence | by right]. }
  rewrite Hp'. simpl. by rewrite He.
Qed.

Lemma edited_spec (h : Heap) (this : QJsonArray.t) (p : loc)
    (c : QCborContainerPrivate.t) (l' : list QCborValue.t) :
  QJsonArray.a this = Some p -> h !! p = Some c ->
  contents (snd (edited h p c l'))
           (QJsonArray.Handle (Some (fst (edited h p c l')))) = Some l' /\
  owns (snd (edited h p c l'))
                  (QJsonArray.Handle (Some (fst (edited h p c l')))) = true /\
  frame h (snd (edited h p c l')) this.
Proof.
  intros Ha Hp. unfold edited, contents, owns. simpl.
  rewrite lookup_insert_eq. repeat split.
  intros q cq Hq Hor.
  destruct (detached_frame p q c cq h Hp Hq) as (Hne & cq' & Hq' & He & Hr).
  { destruct Hor as [Hor|Hor]; [left; congruence | by right]. }
  exists cq'. by rewrite lookup_insert_ne.
Qed.

Lemma detach_call_run {A B : Type} (this : QJsonArray.t) (p : loc)
    (c : QCborContainerPrivate.t) (rsv : Z)
    (f : QCborContainerPrivate.t -> option (A * QCborContainerPrivate.t))
    (k : A -> QJsonArray.t -> M B) (x : A) (l' : list QCborValue.t)
    (h : Heap) :
  QJsonArray.a this = Some p -> h !! p = Some c ->
  f (QCborContainerPrivate.Container 1 (QCborContainerPrivate.elements c)) =
    Some (x, QCborContainerPrivate.Container 1 l') ->
  bind (QJsonArray.detach this rsv)
       (fun r => bind (call (QJsonArray.a (snd r)) f)
                      (fun y => k y (snd r))) h =
  k x (QJsonArray.Handle (Some (fst (edited h p c l'))))
      (snd (edited h p c l')).
Proof.
  intros Ha Hp Hf.
  erewrite bind_run by (eapply detach_run; eassumption). simpl.
  erewrite bind_run; [reflexivity|].
  eapply call_run; [apply detached_lookup; exact Hp | exact Hf].
Qed.

Lemma stored_encoding (v : QJsonValue.t) :
  (if QJsonValue.Type_eqb (QJsonValue.type v) QJsonValue.TUndefined
   then QCborValue.Null else QCborValue.fromJsonValue v) =
  QCborValue.fromJsonValue (stored v).
Proof. by destruct v. Qed.

Lemma delete_insert_same {A : Type} (l : list A) (i : nat) (x : A) :
  delete i (<[i := x]> l) = delete i l.
Proof.
  rewrite !delete_take_drop.
  rewrite take_insert_ge by lia. by rewrite drop_insert_lt by lia.
Qed.

Lemma removeAt_outside (h : Heap) (this : QJsonArray.t) (i : Z) :
  QJsonArray.out_of_bounds this i h = Some true ->
  QJsonArray.removeAt this i h = Some (this, h).
Proof.
  intros Ho. unfold QJsonArray.removeAt.
  by erewrite bind_run by (apply read_run; exact Ho).
Qed.

Lemma takeAt_outside (h : Heap) (this : QJsonArray.t) (i : Z) :
  QJsonArray.out_of_bounds this i h = Some true ->
  QJsonArray.takeAt this i h = Some ((QJsonValue.Undefined, this), h).
Proof.
  intros Ho. unfold QJsonArray.takeAt.
  by erewrite bind_run by (apply read_run; exact Ho).
Qed.

Lemma removeAt_inside (h : Heap) (this : QJsonArray.t) (p : loc)
    (c : QCborContainerPrivate.t) (i : Z) :
  QJsonArray.a this = Some p -> h !! p = Some c ->
  0 <= i < QCborContainerPrivate.count c ->
  QJsonArray.removeAt this i h =
  Some (QJsonArray.Handle
          (Some (fst (edited h p c
                        (delete (Z.to_nat i)
                           (QCborContainerPrivate.elements c))))),
        snd (edited h p c
               (delete (Z.to_nat i) (QCborContainerPrivate.elements c)))).
Proof.
  intros Ha Hp Hi. unfold QJsonArray.removeAt.
  erewrite bind_run; cycle 1.
  { apply read_run. unfold QJsonArray.out_of_bounds, load. rewrite Ha, Hp.
    simpl. destruct (i <? 0) eqn:E; [lia|]. reflexivity. }
  destruct (i >=? QCborContainerPrivate.count c) eqn:E;
    [rewrite Z.geb_leb in E; lia|].
  cbv zeta.
  unfold QCborContainerPrivate.count in Hi.
  erewrite (detach_call_run this p c 0 _ (fun _ t => ret t) tt
              (delete (Z.to_nat i) (QCborContainerPrivate.elements c)));
    try eassumption; [reflexivity|].
  unfold QCborContainerPrivate.removeAt, QCborContainerPrivate.count. simpl.
  destruct (0 <=? i) eqn:E1; [|lia].
  destruct (i <? Z.of_nat (length (QCborContainerPrivate.elements c)))
    eqn:E2; [|lia]. reflexivity.
Qed.

Lemma takeAt_inside (h : Heap) (this : QJsonArray.t) (p : loc)
    (c : QCborContainerPrivate.t) (i : Z) :
  QJsonArray.a this = Some p -> h !! p = Some c ->
  0 <= i < QCborContainerPrivate.count c ->
  QJsonArray.takeAt this i h =
  Some ((value_at (QCborContainerPrivate.elements c) i,
         QJsonArray.Handle
           (Some (fst (edited h p c
                         (delete (Z.to_nat i)
                            (QCborContainerPrivate.elements c)))))),
        snd (edited h p c
               (delete (Z.to_nat i) (QCborContainerPrivate.elements c)))).
Proof.
  intros Ha Hp Hi. unfold QJsonArray.takeAt.
  erewrite bind_run; cycle 1.
  { apply read_run. unfold QJsonArray.out_of_bounds, load. rewrite Ha, Hp.
    simpl. destruct (i <? 0) eqn:E; [lia|]. reflexivity. }
  destruct (i >=? QCborContainerPrivate.count c) eqn:E;
    [rewrite Z.geb_leb in E; lia|].
  cbv zeta. unfold QCborContainerPrivate.count in Hi.
  destruct (QCborContainerPrivate.elements c !! Z.to_nat i) as [e|] eqn:He;
    [|apply lookup_ge_None in He; lia].
  rewrite (detach_call_run this p c 0 (QCborContainerPrivate.extractAt i)
             (fun y t =>
                let! _ := call (QJsonArray.a t) (fun c =>
                            c' ← QCborContainerPrivate.removeAt i c;
                            Some (tt, c')) in
                ret (QJsonPrivate.Value.fromTrustedCbor y, t)) e
             (<[Z.to_nat i := QCborValue.Undefined]>
                (QCborContainerPrivate.elements c)) h Ha Hp); cycle 1.
  { unfold QCborContainerPrivate.extractAt, QCborContainerPrivate.count.
    simpl. rewrite He.
    destruct (0 <=? i) eqn:E1; [|lia].
    destruct (i <? Z.of_nat (length (QCborContainerPrivate.elements c)))
      eqn:E2; [|lia]. reflexivity. }
  unfold edited at 1 2. simpl.
  erewrite bind_run; cycle 1.
  { eapply call_run; [apply lookup_insert_eq|].
    unfold QCborContainerPrivate.removeAt, QCborContainerPrivate.count.
    simpl. rewrite length_insert.
    destruct (0 <=? i) eqn:E1; [|lia].
    destruct (i <? Z.of_nat (length (QCborContainerPrivate.elements c)))
      eqn:E2; [|lia]. reflexivity. }
  unfold ret, edited. simpl. rewrite insert_insert_eq.
  rewrite delete_insert_same.
  f_equal. f_equal. f_equal.
  unfold value_at. rewrite He.
  destruct (0 <=? i) eqn:E1; [|lia].
  destruct (i <? Z.of_nat (length (QCborContainerPrivate.elements c)))
    eqn:E2; [|lia]. reflexivity.
Qed.

Lemma replace_inside (h : Heap) (this : QJsonArray.t) (p : loc)
    (c : QCborContainerPrivate.t) (i : Z) (v : QJsonValue.t) :
  QJsonArray.a this = Some p -> h !! p = Some c ->
  0 <= i < QCborContainerPrivate.count c ->
  QJsonArray.replace this i v h =
  Some (QJsonArray.Handle
          (Some (fst (edited h p c
                        (<[Z.to_nat i := QCborValue.fromJsonValue v]>
                           (QCborContainerPrivate.elements c))))),
        snd (edited h p c
               (<[Z.to_nat i := QCborValue.fromJsonValue v]>
                  (QCborContainerPrivate.elements c)))).
Proof.
  intros Ha Hp Hi. unfold QJsonArray.replace.
  erewrite bind_run; cycle 1.
  { apply read_run. unfold QJsonArray.out_of_bounds, load. rewrite Ha, Hp.
    simpl. destruct (i <? 0) eqn:E; [lia|]. reflexivity. }
  destruct (i >=? QCborContainerPrivate.count c) eqn:E;
    [rewrite Z.geb_leb in E; lia|].
  erewrite bind_run by reflexivity.
  cbv zeta. unfold QCborContainerPrivate.count in Hi.
  erewrite (detach_call_run this p c 0 _ (fun _ t => ret t) tt
              (<[Z.to_nat i := QCborValue.fromJsonValue v]>
                 (QCborContainerPrivate.elements c)));
    try eassumption; [reflexivity|].
  unfold QCborContainerPrivate.replaceAt, QCborContainerPrivate.count. simpl.
  destruct (0 <=? i) eqn:E1; [|lia].
  destruct (i <? Z.of_nat (length (QCborContainerPrivate.elements c)))
    eqn:E2; [|lia]. reflexivity.
Qed.

Lemma insert_present (h : Heap) (this : QJsonArray.t) (p : loc)
    (c : QCborContainerPrivate.t) (i : Z) (v : QJsonValue.t) :
  QJsonArray.a this = Some p -> h !! p = Some c ->
  0 <= i <= QCborContainerPrivate.count c ->
  QJsonArray.insert this i v h =
  Some (QJsonArray.Handle
          (Some (fst (edited h p c
                        (take (Z.to_nat i) (QCborContainerPrivate.elements c)
                         ++ QCborValue.fromJsonValue (stored v)
                         :: drop (Z.to_nat i)
                              (QCborContainerPrivate.elements c))))),
        snd (edited h p c
               (take (Z.to_nat i) (QCborContainerPrivate.elements c)
                ++ QCborValue.fromJsonValue (stored v)
                :: drop (Z.to_nat i) (QCborContainerPrivate.elements c)))).
Proof.
  intros Ha Hp Hi. unfold QJsonArray.insert. rewrite Ha.
  pose proof (detached_lookup p c h Hp) as Hd.
  erewrite bind_run; cycle 1.
  { erewrite bind_run by (apply read_run; exact Hp).
    erewrite bind_run by (eapply detach_run; eassumption). reflexivity. }
  simpl QJsonArray.a.
  erewrite bind_run; cycle 1.
  { apply read_run. simpl. unfold load. rewrite Hd. reflexivity. }
  unfold QCborContainerPrivate.count in *. simpl.
  destruct (0 <=? i) eqn:E1; [|lia].
  destruct (i <=? Z.of_nat (length (QCborContainerPrivate.elements c)))
    eqn:E2; [|lia].
  erewrite bind_run by reflexivity.
  erewrite bind_run; cycle 1.
  { eapply call_run; [exact Hd|].
    unfold QCborContainerPrivate.insertAt, QCborContainerPrivate.count.
    simpl. rewrite E1, E2. simpl. rewrite stored_encoding. reflexivity. }
  reflexivity.
Qed.

Lemma assign_null (p' : loc) (c' : QCborContainerPrivate.t) (h : Heap) :
  h !! p' = Some c' ->
  QExplicitlySharedDataPointer.assign None (Some p') h =
  Some (Some p',
        <[p' := QCborContainerPrivate.Container
                  (QCborContainerPrivate.ref c' + 1)
                  (QCborContainerPrivate.elements c')]> h).
Proof.
  intros Hp'. unfold QExplicitlySharedDataPointer.assign.
  rewrite decide_False by discriminate.
  by erewrite bind_run by (apply ref_ref_run; exact Hp').
Qed.

Lemma insert_absent (h : Heap) (this : QJsonArray.t) (v : QJsonValue.t) :
  QJsonArray.a this = None ->
  QJsonArray.insert this 0 v h =
  Some (QJsonArray.Handle (Some (fresh (dom h))),
        <[fresh (dom h) :=
            QCborContainerPrivate.Container
              1 [QCborValue.fromJsonValue (stored v)]]> h).
Proof.
  intros Ha. unfold QJsonArray.insert. rewrite Ha.
  pose proof (fresh_lookup h) as Hf.
  set (p' := fresh (dom h)) in *.
  erewrite bind_run; cycle 1.
  { erewrite bind_run by reflexivity. fold p'.
    erewrite bind_run by (apply assign_null; apply lookup_insert_eq).
    rewrite insert_insert_eq. reflexivity. }
  simpl QJsonArray.a.
  erewrite bind_run; cycle 1.
  { apply read_run. simpl. unfold load. rewrite lookup_insert_eq. reflexivity. }
  erewrite bind_run by reflexivity.
  erewrite bind_run; cycle 1.
  { eapply call_run; [apply lookup_insert_eq|].
    unfold QCborContainerPrivate.insertAt. simpl.
    rewrite stored_encoding. reflexivity. }
  rewrite insert_insert_eq. reflexivity.
Qed.

(** [insert] at an index within [0, size], on the contents. *)
Lemma insert_spec (h : Heap) (this : QJsonArray.t) (l : list QCborValue.t)
    (i : Z) (v : QJsonValue.t) :
  contents h this = Some l -> 0 <= i <= Z.of_nat (length l) ->
  exists this' h',
    QJsonArray.insert this i v h = Some (this', h') /\
    contents h' this' =
      Some (take (Z.to_nat i) l ++ QCborValue.fromJsonValue (stored v)
            :: drop (Z.to_nat i) l) /\
    owns h' this' = true /\
    frame h h' this.
Proof.
  intros Hc Hi.
  destruct (contents_inv _ _ _ Hc) as [[Ha ->]|(p & c & Ha & Hp & <-)].
  - simpl in Hi. assert (i = 0) as -> by lia.
    pose proof (fresh_lookup h) as Hf.
    do 2 eexists. split; [by apply insert_absent|].
    unfold contents, owns. simpl. rewrite lookup_insert_eq.
    repeat split.
    intros q cq Hq _. exists cq.
    rewrite lookup_insert_ne by (intros <-; congruence).
    split; [done|]. split; [done|lia].
  - do 2 eexists. split; [by apply insert_present|].
    by apply edited_spec.
Qed.

Lemma append_spec (h : Heap) (this : QJsonArray.t) (l : list QCborValue.t)
    (v : QJsonValue.t) :
  contents h this = Some l ->
  exists this' h',
    QJsonArray.append this v h = Some (this', h') /\
    contents h' this' = Some (l ++ [QCborValue.fromJsonValue (stored v)]) /\
    owns h' this' = true /\
    frame h h' this.
Proof.
  intros Hc.
  destruct (insert_spec h this l (Z.of_nat (length l)) v Hc)
    as (this' & h' & Hi & Hc' & Ho & Hf); [lia|].
  exists this', h'. split; [|split; [|done]].
  - unfold QJsonArray.append. erewrite bind_run; [exact Hi|].
    apply read_run. pose proof (size_contents h this l Hc) as Hs.
    unfold QJsonArray.size in Hs. exact Hs.
  - rewrite Hc'. rewrite Nat2Z.id. by rewrite firstn_all, drop_all.
Qed.

Lemma prepend_spec (h : Heap) (this : QJsonArray.t) (l : list QCborValue.t)
    (v : QJsonValue.t) :
  contents h this = Some l ->
  exists this' h',
    QJsonArray.prepend this v h = Some (this', h') /\
    contents h' this' = Some (QCborValue.fromJsonValue (stored v) :: l) /\
    owns h' this' = true /\
    frame h h' this.
Proof.
  intros Hc. unfold QJsonArray.prepend.
  destruct (insert_spec h this l 0 v Hc)
    as (this' & h' & Hi & Hc' & Ho & Hf); [lia|].
  exists this', h'. split; [done|]. split; [|done].
  rewrite Hc'. simpl. by rewrite drop_0.
Qed.

Lemma removeAt_spec (h : Heap) (this : QJsonArray.t) (l : list QCborValue.t)
    (i : Z) :
  contents h this = Some l -> 0 <= i < Z.of_nat (length l) ->
  exists this' h',
    QJsonArray.removeAt this i h = Some (this', h') /\
    contents h' this' = Some (delete (Z.to_nat i) l) /\
    owns h' this' = true /\
    frame h h' this.
Proof.
  intros Hc Hi.
  destruct (contents_inv _ _ _ Hc) as [[Ha ->]|(p & c & Ha & Hp & <-)].
  - simpl in Hi. lia.
  - do 2 eexists. split; [by apply removeAt_inside|]. by apply edited_spec.
Qed.

Lemma replace_spec (h : Heap) (this : QJsonArray.t) (l : list QCborValue.t)
    (i : Z) (v : QJsonValue.t) :
  contents h this = Some l -> 0 <= i < Z.of_nat (length l) ->
  exists this' h',
    QJsonArray.replace this i v h = Some (this', h') /\
    contents h' this' =
      Some (<[Z.to_nat i := QCborValue.fromJsonValue v]> l) /\
    owns h' this' = true /\
    frame h h' this.
Proof.
  intros Hc Hi.
  destruct (contents_inv _ _ _ Hc) as [[Ha ->]|(p & c & Ha & Hp & <-)].
  - simpl in Hi. lia.
  - do 2 eexists. split; [by apply replace_inside|]. by apply edited_spec.
Qed.

(** [takeAt] at a valid index: the value [at] reads there, and the run of
    [removeAt]. *)
Lemma takeAt_removeAt (h : Heap) (this : QJsonArray.t)
    (l : list QCborValue.t) (i : Z) :
  contents h this = Some l -> 0 <= i < Z.of_nat (length l) ->
  exists this' h',
    QJsonArray.removeAt this i h = Some (this', h') /\
    QJsonArray.takeAt this i h = Some ((value_at l i, this'), h').
Proof.
  intros Hc Hi.
  destruct (contents_inv _ _ _ Hc) as [[Ha ->]|(p & c & Ha & Hp & <-)].
  - simpl in Hi. lia.
  - do 2 eexists. split; [by apply removeAt_inside | by apply takeAt_inside].
Qed.

Lemma size_inv (h : Heap) (this : QJsonArray.t) (n : Z) :
  QJsonArray.size this h = Some n ->
  exists l, contents h this = Some l /\ n = Z.of_nat (length l).
Proof.
  unfold QJsonArray.size, contents, load.
  destruct (QJsonArray.a this) as [p|].
  - destruct (h !! p) as [c|]; simpl; [|discriminate].
    intros [= <-]. by eexists.
  - intros [= <-]. by exists [].
Qed.

Lemma range_inv (h : Heap) (this : QJsonArray.t) (vs : list QJsonValue.t) :
  QJsonArray.range this h = Some vs ->
  exists l, contents h this = Some l /\
            vs = QJsonPrivate.Value.fromTrustedCbor <$> l.
Proof.
  intros Hr. unfold QJsonArray.range in Hr.
  destruct (QJsonArray.size this h) as [n|] eqn:Hs; [|discriminate].
  destruct (size_inv _ _ _ Hs) as (l & Hc & _). exists l. split; [done|].
  rewrite <- Hs in Hr. fold (QJsonArray.range this h) in Hr.
  rewrite (range_contents h this l Hc) in Hr. congruence.
Qed.

(** Every operation within its contract runs, and edits the sequence of
    values as [effect] says, leaving alone what [frame] protects. *)
Lemma mutate_spec (h : Heap) (this : QJsonArray.t) (l : list QCborValue.t)
    (op : Mutation) :
  contents h this = Some l ->
  admissible op (Z.of_nat (length l)) = true ->
  exists this' h' l',
    mutate op this h = Some (this', h') /\
    contents h' this' = Some l' /\
    QJsonPrivate.Value.fromTrustedCbor <$> l' =
      effect op (QJsonPrivate.Value.fromTrustedCbor <$> l) /\
    frame h h' this.
Proof.
  intros Hc Hadm. destruct op as [i v|v|v|i|i|i v]; simpl in *.
  - bools.
    destruct (insert_spec h this l i v Hc) as (t' & h' & Hr & Hc' & _ & Hf);
      [lia|].
    eexists t', h', _. repeat split; try eassumption.
    rewrite fmap_app, fmap_cons, fmap_take, fmap_drop.
    by rewrite fromTrustedCbor_fromJsonValue.
  - destruct (append_spec h this l v Hc) as (t' & h' & Hr & Hc' & _ & Hf).
    eexists t', h', _. repeat split; try eassumption.
    rewrite fmap_app. simpl. by rewrite fromTrustedCbor_fromJsonValue.
  - destruct (prepend_spec h this l v Hc) as (t' & h' & Hr & Hc' & _ & Hf).
    eexists t', h', _. repeat split; try eassumption.
    rewrite fmap_cons. by rewrite fromTrustedCbor_fromJsonValue.
  - rewrite length_fmap.
    destruct ((0 <=? i) && (i <? Z.of_nat (length l))) eqn:E.
    + bools.
      destruct (removeAt_spec h this l i Hc) as (t' & h' & Hr & Hc' & _ & Hf);
        [lia|].
      eexists t', h', _. repeat split; try eassumption.
      apply list_fmap_delete.
    + exists this, h, l. repeat split; try done; [|apply frame_refl].
      apply removeAt_outside.
      rewrite (out_of_bounds_contents h this l i Hc). by rewrite E.
  - rewrite length_fmap.
    destruct ((0 <=? i) && (i <? Z.of_nat (length l))) eqn:E.
    + bools.
      destruct (takeAt_removeAt h this l i Hc) as (t' & h' & Hr & Ht); [lia|].
      destruct (removeAt_spec h this l i Hc)
        as (t'' & h'' & Hr' & Hc' & _ & Hf); [lia|].
      rewrite Hr in Hr'. injection Hr' as <- <-.
      eexists t', h', _. repeat split; try eassumption.
      * by erewrite bind_run by exact Ht.
      * apply list_fmap_delete.
    + exists this, h, l. repeat split; try done; [|apply frame_refl].
      erewrite bind_run by
        (apply takeAt_outside;
         rewrite (out_of_bounds_contents h this l i Hc); by rewrite E).
      reflexivity.
  - bools.
    destruct (replace_spec h this l i v Hc) as (t' & h' & Hr & Hc' & _ & Hf);
      [lia|].
    eexists t', h', _. repeat split; try eassumption.
    rewrite list_fmap_insert. by rewrite fromTrustedCbor_fromJsonValue.
Qed.

(** A copy of a handle that owns its reference shares the backend, which
    then counts at least two references. *)
Lemma copy_construct_spec (h : Heap) (A : QJsonArray.t)
    (l : list QCborValue.t) :
  owns h A = true -> contents h A = Some l ->
  exists h1,
    QJsonArray.copy_construct A h = Some (QJsonArray.Handle (QJsonArray.a A), h1) /\
    contents h1 A = Some l /\
    (forall p c, QJsonArray.a A = Some p -> h1 !! p = Some c ->
                 QCborContainerPrivate.ref c <> 1).
Proof.
  intros Ho Hc. unfold QJsonArray.copy_construct, owns in *.
  destruct (contents_inv _ _ _ Hc) as [[Ha ->]|(p & c & Ha & Hp & <-)];
    rewrite Ha in *.
  - exists h. repeat split; [|done]. unfold contents. by rewrite Ha.
  - rewrite Hp in Ho. bools.
    eexists. split; [|split].
    + simpl. erewrite bind_run; [|erewrite bind_run; [reflexivity|]].
      * reflexivity.
      * by apply ref_ref_run.
    + unfold contents. rewrite Ha. by rewrite lookup_insert_eq.
    + intros p' c' [= <-]. rewrite lookup_insert_eq. intros [= <-]. simpl. lia.
Qed.

(** * The claims *)

Example from_initializer_list_1_2 :
  QJsonArray.from_initializer_list
    [QJsonValue.Double 1; QJsonValue.Double 2] ∅ =
  Some (handle_1, store_1_2).
Proof. vm_compute. reflexivity. Qed.

(** C1. Copy-on-write isolation: when a handle [A] that owns its reference
    is copied and any mutating operation (insert, append, prepend, removeAt,
    takeAt, replace) within its index contract runs on the copy, the
    operation completes, the size of [A], every [at(i)] of [A] and the
    sequence of its elements are what they were, and the copy holds the
    edited sequence. *)
Theorem copy_on_write_isolation (h : Heap) (A : QJsonArray.t)
    (vs : list QJsonValue.t) (op : Mutation) :
  owns h A = true ->
  QJsonArray.range A h = Some vs ->
  admissible op (Z.of_nat (length vs)) = true ->
  exists B h1 B' h2,
    QJsonArray.copy_construct A h = Some (B, h1) /\
    mutate op B h1 = Some (B', h2) /\
    QJsonArray.size A h2 = QJsonArray.size A h /\
    (forall i, QJsonArray.at_ A i h2 = QJsonArray.at_ A i h) /\
    QJsonArray.range A h2 = Some vs /\
    QJsonArray.range B' h2 = Some (effect op vs).
Proof.
  intros Ho Hr Hadm.
  destruct (range_inv _ _ _ Hr) as (l & Hc & ->).
  rewrite length_fmap in Hadm.
  destruct (copy_construct_spec h A l Ho Hc) as (h1 & Hcopy & Hc1 & Hshared).
  set (B := QJsonArray.Handle (QJsonArray.a A)) in *.
  assert (contents h1 B = Some l) as HcB by exact Hc1.
  destruct (mutate_spec h1 B l op HcB Hadm)
    as (B' & h2 & l' & Hrun & Hc' & Heff & Hfr).
  assert (contents h2 A = Some l) as Hc2.
  { apply (frame_contents h1 h2 B A l Hfr Hc1).
    intros p c Ha Hp. right. by eapply Hshared. }
  exists B, h1, B', h2. repeat split; try assumption.
  - by rewrite (size_contents _ _ _ Hc2), (size_contents _ _ _ Hc).
  - intros i. by rewrite (at_contents _ _ _ i Hc2), (at_contents _ _ _ i Hc).
  - by apply range_contents.
  - rewrite (range_contents _ _ _ Hc'). by rewrite Heff.
Qed.

Lemma copy_on_write_isolation_witness :
  exists B h1 B' h2,
    QJsonArray.copy_construct handle_1 store_1_2 = Some (B, h1) /\
    mutate (Append (QJsonValue.Double 3)) B h1 = Some (B', h2) /\
    QJsonArray.size handle_1 h2 = QJsonArray.size handle_1 store_1_2 /\
    (forall i, QJsonArray.at_ handle_1 i h2 =
               QJsonArray.at_ handle_1 i store_1_2) /\
    QJsonArray.range handle_1 h2 =
      Some [QJsonValue.Double 1; QJsonValue.Double 2] /\
    QJsonArray.range B' h2 =
      Some [QJsonValue.Double 1; QJsonValue.Double 2; QJsonValue.Double 3].
Proof.
  apply (copy_on_write_isolation store_1_2 handle_1
           [QJsonValue.Double 1; QJsonValue.Double 2]
           (Append (QJsonValue.Double 3)));
    vm_compute; reflexivity.
Defined.

(** What [at] reads at the position of an insertion. *)
Lemma value_at_inserted (l : list QCborValue.t) (i : Z) (e : QCborValue.t) :
  0 <= i <= Z.of_nat (length l) ->
  (take (Z.to_nat i) l ++ e :: drop (Z.to_nat i) l) !! Z.to_nat i = Some e /\
  value_at (take (Z.to_nat i) l ++ e :: drop (Z.to_nat i) l) i =
    QJsonPrivate.Value.fromTrustedCbor e.
Proof.
  intros Hi.
  assert ((take (Z.to_nat i) l ++ e :: drop (Z.to_nat i) l) !! Z.to_nat i
          = Some e) as Hl.
  { apply list_lookup_middle. rewrite length_take. lia. }
  split; [exact Hl|].
  pose proof (value_at_lookup _ _ _ Hl) as Hv.
  by rewrite Z2Nat.id in Hv by lia.
Qed.

Lemma length_inserted (l : list QCborValue.t) (i : Z) (e : QCborValue.t) :
  Z.of_nat (length (take (Z.to_nat i) l ++ e :: drop (Z.to_nat i) l)) =
  Z.of_nat (length l) + 1.
Proof.
  rewrite length_app, length_cons, length_take, length_drop. lia.
Qed.

Example insert_undefined_into_empty :
  exists this' h',
    QJsonArray.insert QJsonArray.QJsonArray 0 QJsonValue.Undefined ∅ =
      Some (this', h') /\
    QJsonArray.at_ this' 0 h' = Some QJsonValue.Null /\
    QJsonArray.size this' h' = Some 1.
Proof. do 2 eexists. repeat split; vm_compute; reflexivity. Qed.

(** C2, as stated, fails when the value is Undefined: inserting Undefined
    into the empty array and reading index 0 does not give Undefined. *)
Lemma insert_reads_back_fails_for_undefined :
  ~ insert_reads_back ∅ QJsonArray.QJsonArray 0 QJsonValue.Undefined.
Proof.
  intros (n & this' & h' & _ & Hins & Hat & _).
  rewrite insert_absent in Hins by reflexivity.
  injection Hins as <- <-.
  vm_compute in Hat. discriminate Hat.
Qed.

(** C2, amended. For every array of size [n], every index [0 <= i <= n] and
    every value [v], [insert(i, v)] completes, the size becomes [n + 1], and
    [at(i)] then returns [v] when [v] is not Undefined and Null when it
    is. *)
Theorem insert_then_at (h : Heap) (this : QJsonArray.t) (n i : Z)
    (v : QJsonValue.t) :
  QJsonArray.size this h = Some n ->
  0 <= i <= n ->
  exists this' h',
    QJsonArray.insert this i v h = Some (this', h') /\
    QJsonArray.size this' h' = Some (n + 1) /\
    QJsonArray.at_ this' i h' =
      Some (match v with
            | QJsonValue.Undefined => QJsonValue.Null
            | _ => v
            end).
Proof.
  intros Hs Hi. destruct (size_inv _ _ _ Hs) as (l & Hc & ->).
  destruct (insert_spec h this l i v Hc Hi) as (this' & h' & Hr & Hc' & _ & _).
  exists this', h'. split; [exact Hr|]. split.
  - rewrite (size_contents _ _ _ Hc'). by rewrite length_inserted.
  - rewrite (at_contents _ _ _ i Hc').
    destruct (value_at_inserted l i (QCborValue.fromJsonValue (stored v)) Hi)
      as [_ ->].
    by rewrite fromTrustedCbor_fromJsonValue.
Qed.

Lemma insert_then_at_witness :
  exists this' h',
    QJsonArray.insert handle_1 1 (QJsonValue.String "x") store_1_2 =
      Some (this', h') /\
    QJsonArray.size this' h' = Some 3 /\
    QJsonArray.at_ this' 1 h' = Some (QJsonValue.String "x").
Proof.
  apply (insert_then_at store_1_2 handle_1 2 1 (QJsonValue.String "x"));
    [vm_compute; reflexivity | lia].
Defined.

(** C3. Inserting the Undefined variant stores the encoded Null
    ([QCborValue(nullptr)]) at the position of the insertion, and [at] reads
    Null there; the same holds for [append] (position [n]) and [prepend]
    (position 0). *)
Theorem undefined_is_stored_as_null (h : Heap) (this : QJsonArray.t)
    (n i : Z) :
  QJsonArray.size this h = Some n ->
  0 <= i <= n ->
  (exists this' h' l',
      QJsonArray.insert this i QJsonValue.Undefined h = Some (this', h') /\
      contents h' this' = Some l' /\
      l' !! Z.to_nat i = Some QCborValue.Null /\
      QJsonArray.at_ this' i h' = Some QJsonValue.Null) /\
  (exists this' h' l',
      QJsonArray.append this QJsonValue.Undefined h = Some (this', h') /\
      contents h' this' = Some l' /\
      l' !! Z.to_nat n = Some QCborValue.Null /\
      QJsonArray.at_ this' n h' = Some QJsonValue.Null) /\
  (exists this' h' l',
      QJsonArray.prepend this QJsonValue.Undefined h = Some (this', h') /\
      contents h' this' = Some l' /\
      l' !! 0%nat = Some QCborValue.Null /\
      QJsonArray.at_ this' 0 h' = Some QJsonValue.Null).
Proof.
  intros Hs Hi. destruct (size_inv _ _ _ Hs) as (l & Hc & ->).
  assert (forall j, 0 <= j <= Z.of_nat (length l) ->
            exists this' h' l',
              QJsonArray.insert this j QJsonValue.Undefined h
                = Some (this', h') /\
              contents h' this' = Some l' /\
              l' !! Z.to_nat j = Some QCborValue.Null /\
              QJsonArray.at_ this' j h' = Some QJsonValue.Null) as Hins.
  { intros j Hj.
    destruct (insert_spec h this l j QJsonValue.Undefined Hc Hj)
      as (this' & h' & Hr & Hc' & _ & _).
    simpl in Hc'.
    destruct (value_at_inserted l j QCborValue.Null Hj) as [Hl Hv].
    eexists this', h', _. repeat split; try eassumption.
    rewrite (at_contents _ _ _ j Hc'). by rewrite Hv. }
  split; [by apply Hins|]. split.
  - destruct (Hins (Z.of_nat (length l))) as (this' & h' & l' & Hr & ?);
      [lia|].
    exists this', h', l'. split; [|done].
    unfold QJsonArray.append. erewrite bind_run; [exact Hr|].
    apply read_run. pose proof (size_contents h this l Hc) as Hsz.
    exact Hsz.
  - destruct (Hins 0) as (this' & h' & l' & Hr & ?); [lia|].
    by exists this', h', l'.
Qed.

Lemma undefined_is_stored_as_null_witness :
  (exists this' h' l',
      QJsonArray.insert handle_1 1 QJsonValue.Undefined store_1_2
        = Some (this', h') /\
      contents h' this' = Some l' /\
      l' !! Z.to_nat 1 = Some QCborValue.Null /\
      QJsonArray.at_ this' 1 h' = Some QJsonValue.Null) /\
  (exists this' h' l',
      QJsonArray.append handle_1 QJsonValue.Undefined store_1_2
        = Some (this', h') /\
      contents h' this' = Some l' /\
      l' !! Z.to_nat 2 = Some QCborValue.Null /\
      QJsonArray.at_ this' 2 h' = Some QJsonValue.Null) /\
  (exists this' h' l',
      QJsonArray.prepend handle_1 QJsonValue.Undefined store_1_2
        = Some (this', h') /\
      contents h' this' = Some l' /\
      l' !! 0%nat = Some QCborValue.Null /\
      QJsonArray.at_ this' 0 h' = Some QJsonValue.Null).
Proof.
  apply (undefined_is_stored_as_null store_1_2 handle_1 2 1);
    [vm_compute; reflexivity | lia].
Defined.

Example takeAt_1_2_3 :
  exists h',
    QJsonArray.takeAt handle_1 0 store_1_2_3 =
      Some ((QJsonValue.Double 1, handle_1), h') /\
    QJsonArray.range handle_1 h' =
      Some [QJsonValue.Double 2; QJsonValue.Double 3].
Proof. eexists. split; vm_compute; reflexivity. Qed.

(** C4. On an array of size [n], [takeAt(i)] completes, returns what
    [at(i)] returns just before the call, and leaves the handle and the
    store exactly as [removeAt(i)] does.  When the backend is absent or [i]
    is outside [0, n), the value is Undefined and handle and store are
    unchanged. *)
Theorem takeAt_spec (h : Heap) (this : QJsonArray.t) (n i : Z) :
  QJsonArray.size this h = Some n ->
  exists v this' h',
    QJsonArray.at_ this i h = Some v /\
    QJsonArray.removeAt this i h = Some (this', h') /\
    QJsonArray.takeAt this i h = Some ((v, this'), h') /\
    (QJsonArray.a this = None \/ i < 0 \/ n <= i ->
     v = QJsonValue.Undefined /\ this' = this /\ h' = h).
Proof.
  intros Hs. destruct (size_inv _ _ _ Hs) as (l & Hc & ->).
  rewrite (at_contents _ _ _ i Hc).
  destruct ((0 <=? i) && (i <? Z.of_nat (length l))) eqn:E.
  - bools.
    destruct (takeAt_removeAt h this l i Hc) as (this' & h' & Hr & Ht); [lia|].
    exists (value_at l i), this', h'.
    split; [reflexivity|]. split; [exact Hr|]. split; [exact Ht|].
    intros [Ha|Hout]; [|lia].
    destruct (contents_inv _ _ _ Hc) as [[_ ->]|(p & c & Ha' & _)];
      [simpl in *; lia | congruence].
  - assert (QJsonArray.out_of_bounds this i h = Some true) as Ho
        by (rewrite (out_of_bounds_contents h this l i Hc); by rewrite E).
    exists QJsonValue.Undefined, this, h.
    split; [|split; [|split]]; try done.
    + unfold value_at. by rewrite E.
    + by apply removeAt_outside.
    + by apply takeAt_outside.
Qed.

Lemma takeAt_spec_witness :
  exists v this' h',
    QJsonArray.at_ handle_1 0 store_1_2_3 = Some v /\
    QJsonArray.removeAt handle_1 0 store_1_2_3 = Some (this', h') /\
    QJsonArray.takeAt handle_1 0 store_1_2_3 = Some ((v, this'), h').
Proof.
  destruct (takeAt_spec store_1_2_3 handle_1 3 0) as (v & t & h' & H).
  - vm_compute. reflexivity.
  - exists v, t, h'. tauto.
Defined.

Lemma value_at_delete (l : list QCborValue.t) (i j : Z) :
  0 <= i < Z.of_nat (length l) ->
  value_at (delete (Z.to_nat i) l) j =
  if j <? i then value_at l j else value_at l (j + 1).
Proof.
  intros Hi. unfold value_at. rewrite length_delete; cycle 1.
  { apply lookup_lt_is_Some. lia. }
  destruct (j <? i) eqn:E; bools.
  - destruct (0 <=? j) eqn:E1; [|reflexivity]. bools.
    rewrite list_lookup_delete_lt by lia.
    destruct (j <? Z.of_nat (length l - 1)) eqn:E2,
             (j <? Z.of_nat (length l)) eqn:E3; bools; try reflexivity; lia.
  - destruct (0 <=? j) eqn:E1; bools; [|lia].
    destruct (0 <=? j + 1) eqn:E1'; bools; [|lia].
    rewrite list_lookup_delete_ge by lia.
    replace (Z.to_nat (j + 1)) with (S (Z.to_nat j)) by lia.
    destruct (j <? Z.of_nat (length l - 1)) eqn:E2,
             (j + 1 <? Z.of_nat (length l)) eqn:E3; bools;
      try reflexivity; lia.
Qed.

Example removeAt_1_2_3 :
  exists h',
    QJsonArray.removeAt handle_1 1 store_1_2_3 = Some (handle_1, h') /\
    QJsonArray.range handle_1 h' =
      Some [QJsonValue.Double 1; QJsonValue.Double 3] /\
    QJsonArray.size handle_1 h' = Some 2.
Proof. eexists. repeat split; vm_compute; reflexivity. Qed.

(** C5. On an array of size [n] with elements [vs], [removeAt(i)] with
    [0 <= i < n] completes, the size becomes [n - 1], the positions below
    [i] keep their element, every position [j >= i] reads what position
    [j + 1] read before, and the elements are [vs] without its [i]-th, in
    the same order.  For any other [i] (in particular always when the
    backend is absent) handle and store are unchanged. *)
Theorem removeAt_shifts (h : Heap) (this : QJsonArray.t)
    (vs : list QJsonValue.t) (n i : Z) :
  QJsonArray.size this h = Some n ->
  QJsonArray.range this h = Some vs ->
  (0 <= i < n ->
   exists this' h',
     QJsonArray.removeAt this i h = Some (this', h') /\
     QJsonArray.size this' h' = Some (n - 1) /\
     (forall j, j < i -> QJsonArray.at_ this' j h' = QJsonArray.at_ this j h) /\
     (forall j, i <= j ->
                QJsonArray.at_ this' j h' = QJsonArray.at_ this (j + 1) h) /\
     QJsonArray.range this' h' = Some (delete (Z.to_nat i) vs)) /\
  (~ 0 <= i < n -> QJsonArray.removeAt this i h = Some (this, h)) /\
  (QJsonArray.a this = None -> QJsonArray.removeAt this i h = Some (this, h)).
Proof.
  intros Hs Hr. destruct (range_inv _ _ _ Hr) as (l & Hc & ->).
  rewrite (size_contents _ _ _ Hc) in Hs. injection Hs as <-.
  split; [|split].
  - intros Hi.
    destruct (removeAt_spec h this l i Hc Hi) as (this' & h' & Hrun & Hc' & _).
    exists this', h'. split; [exact Hrun|]. split; [|split; [|split]].
    + rewrite (size_contents _ _ _ Hc'). rewrite length_delete; cycle 1.
      { apply lookup_lt_is_Some. lia. }
      f_equal. lia.
    + intros j Hj.
      rewrite (at_contents _ _ _ j Hc'), (at_contents _ _ _ j Hc).
      rewrite value_at_delete by exact Hi.
      destruct (j <? i) eqn:E; bools; [reflexivity|lia].
    + intros j Hj.
      rewrite (at_contents _ _ _ j Hc'), (at_contents _ _ _ (j + 1) Hc).
      rewrite value_at_delete by exact Hi.
      destruct (j <? i) eqn:E; bools; [lia|reflexivity].
    + rewrite (range_contents _ _ _ Hc'). by rewrite list_fmap_delete.
  - intros Hi. apply removeAt_outside.
    rewrite (out_of_bounds_contents h this l i Hc). f_equal.
    destruct (0 <=? i) eqn:E1, (i <? Z.of_nat (length l)) eqn:E2; bools;
      try reflexivity; lia.
  - intros Ha. apply removeAt_outside.
    unfold QJsonArray.out_of_bounds. by rewrite Ha.
Qed.

Lemma removeAt_shifts_witness :
  exists this' h',
    QJsonArray.removeAt handle_1 1 store_1_2_3 = Some (this', h') /\
    QJsonArray.size this' h' = Some (3 - 1) /\
    (forall j, j < 1 ->
               QJsonArray.at_ this' j h' = QJsonArray.at_ handle_1 j store_1_2_3) /\
    (forall j, 1 <= j ->
               QJsonArray.at_ this' j h' =
               QJsonArray.at_ handle_1 (j + 1) store_1_2_3) /\
    QJsonArray.range this' h' =
      Some [QJsonValue.Double 1; QJsonValue.Double 3].
Proof.
  apply (removeAt_shifts store_1_2_3 handle_1
           [QJsonValue.Double 1; QJsonValue.Double 2; QJsonValue.Double 3]
           3 1); [vm_compute; reflexivity | vm_compute; reflexivity | lia].
Defined.

(** C6. On an array of size [n], [at(i)] with [i < 0] or [i >= n] returns
    Undefined and, being a read, leaves the store as it is; [first()] is
    [at(0)] and [last()] is [at(n - 1)], and both are Undefined when the
    array is empty. *)
Theorem at_out_of_range (h : Heap) (this : QJsonArray.t) (n i : Z) :
  QJsonArray.size this h = Some n ->
  (i < 0 \/ n <= i ->
   read (QJsonArray.at_ this i) h = Some (QJsonValue.Undefined, h)) /\
  QJsonArray.first this h = QJsonArray.at_ this 0 h /\
  QJsonArray.last this h = QJsonArray.at_ this (n - 1) h /\
  (n = 0 ->
   QJsonArray.first this h = Some QJsonValue.Undefined /\
   QJsonArray.last this h = Some QJsonValue.Undefined).
Proof.
  intros Hs. destruct (size_inv _ _ _ Hs) as (l & Hc & ->).
  assert (QJsonArray.last this h =
          QJsonArray.at_ this (Z.of_nat (length l) - 1) h) as Hlast.
  { unfold QJsonArray.last.
    destruct (contents_inv _ _ _ Hc) as [[Ha ->]|(p & c & Ha & Hp & <-)];
      rewrite Ha.
    - simpl. rewrite !(at_contents _ _ _ _ Hc). reflexivity.
    - unfold load. rewrite Hp. reflexivity. }
  split; [|split; [|split]].
  - intros Hi. apply read_run. rewrite (at_contents _ _ _ i Hc).
    by rewrite value_at_outside.
  - reflexivity.
  - exact Hlast.
  - intros Hn. rewrite Hlast. unfold QJsonArray.first.
    rewrite !(at_contents _ _ _ _ Hc).
    by rewrite !value_at_outside by lia.
Qed.

Lemma at_out_of_range_witness :
  read (QJsonArray.at_ handle_1 2) store_1_2 =
    Some (QJsonValue.Undefined, store_1_2).
Proof.
  apply (at_out_of_range store_1_2 handle_1 2 2);
    [vm_compute; reflexivity | lia].
Defined.

(** ** Equality *)

Lemma comparesEqual_loop_spec (cl cr : QCborContainerPrivate.t) (n k : nat) :
  length (QCborContainerPrivate.elements cl) =
    length (QCborContainerPrivate.elements cr) ->
  (k + n = length (QCborContainerPrivate.elements cl))%nat ->
  exists b,
    QJsonArray.comparesEqual_loop cl cr (Z.of_nat k) n = Some b /\
    (b = true <->
     drop k (QCborContainerPrivate.elements cl) =
     drop k (QCborContainerPrivate.elements cr)).
Proof.
  intros Hlen. revert k. induction n as [|n IH]; intros k Hk; simpl.
  - exists true. split; [reflexivity|]. split; [|reflexivity]. intros _.
    by rewrite !drop_ge by lia.
  - destruct (QCborContainerPrivate.elements cl !! k) as [x|] eqn:Hx;
      [|apply lookup_ge_None in Hx; lia].
    destruct (QCborContainerPrivate.elements cr !! k) as [y|] eqn:Hy;
      [|apply lookup_ge_None in Hy; lia].
    unfold QCborContainerPrivate.valueAt, QCborContainerPrivate.count.
    rewrite <- Hlen.
    destruct (0 <=? Z.of_nat k) eqn:E1; bools; [|lia].
    destruct (Z.of_nat k <?
              Z.of_nat (length (QCborContainerPrivate.elements cl))) eqn:E2;
      bools; [|lia].
    simpl. rewrite Nat2Z.id, Hx, Hy. simpl.
    rewrite (drop_S _ _ _ Hx), (drop_S _ _ _ Hy).
    destruct (QCborValue.neqb x y) eqn:Hne.
    + exists false. split; [reflexivity|]. split; [discriminate|].
      intros [= Hxy _]. apply QCborValue_neqb_false in Hxy. congruence.
    + apply QCborValue_neqb_false in Hne. subst y.
      replace (Z.of_nat k + 1) with (Z.of_nat (S k)) by lia.
      destruct (IH (S k)) as (b & Hb & Hiff); [lia|].
      exists b. split; [exact Hb|]. rewrite Hiff. split; congruence.
Qed.

(** [comparesEqual] decides equality of the two sequences of encoded
    elements. *)
Lemma comparesEqual_contents (h : Heap) (A B : QJsonArray.t)
    (la lb : list QCborValue.t) :
  contents h A = Some la -> contents h B = Some lb ->
  exists b, QJsonArray.comparesEqual A B h = Some b /\ (b = true <-> la = lb).
Proof.
  intros HA HB. unfold QJsonArray.comparesEqual.
  destruct (decide (QJsonArray.a A = QJsonArray.a B)) as [Heq|Hne].
  { exists true. split; [reflexivity|]. split; [|reflexivity]. intros _.
    unfold contents in *. rewrite Heq in HA. congruence. }
  destruct (contents_inv _ _ _ HA) as [[Ha ->]|(p & c & Ha & Hp & <-)];
    destruct (contents_inv _ _ _ HB) as [[Hb ->]|(q & d & Hb & Hq & <-)];
    rewrite Ha, Hb in *; try congruence; unfold load.
  - rewrite Hq. simpl. eexists. split; [reflexivity|].
    unfold QCborContainerPrivate.count.
    destruct (QCborContainerPrivate.elements d); simpl; split;
      try done; try discriminate.
  - rewrite Hp. simpl. eexists. split; [reflexivity|].
    unfold QCborContainerPrivate.count.
    destruct (QCborContainerPrivate.elements c); simpl; split;
      try done; try discriminate.
  - rewrite Hp, Hq. simpl. unfold QCborContainerPrivate.count.
    destruct (Z.of_nat (length (QCborContainerPrivate.elements c)) =?
              Z.of_nat (length (QCborContainerPrivate.elements d))) eqn:E;
      bools; simpl.
    + rewrite Nat2Z.id. change 0 with (Z.of_nat 0).
      destruct (comparesEqual_loop_spec c d
                  (length (QCborContainerPrivate.elements c)) 0)
        as (b & Hb' & Hiff); [lia|lia|].
      exists b. split; [exact Hb'|]. by rewrite !drop_0 in Hiff.
    + exists false. split; [reflexivity|]. split; [discriminate|].
      intros Heq. rewrite Heq in E. lia.
Qed.

Lemma value_at_ext (la lb : list QCborValue.t) :
  la = lb <->
  length la = length lb /\
  forall i, 0 <= i < Z.of_nat (length la) -> value_at la i = value_at lb i.
Proof.
  split; [by intros ->|]. intros [Hlen Hat].
  apply list_eq. intros k.
  destruct (la !! k) as [x|] eqn:Hx.
  - pose proof (lookup_lt_Some _ _ _ Hx) as Hk.
    destruct (lb !! k) as [y|] eqn:Hy;
      [|apply lookup_ge_None in Hy; lia].
    specialize (Hat (Z.of_nat k)).
    rewrite (value_at_lookup _ _ _ Hx), (value_at_lookup _ _ _ Hy) in Hat.
    f_equal. apply fromTrustedCbor_inj. apply Hat. lia.
  - apply lookup_ge_None in Hx. symmetry. apply lookup_ge_None. lia.
Qed.

(** C7. On handles whose backends are allocated, array equality is total,
    reflexive, symmetric and transitive; it holds exactly when the two
    arrays have the same size and [at(i)] agrees at every index; pointing at
    the same backend, or both being empty, is enough for it. *)
Theorem comparesEqual_equivalence (h : Heap) (A B C : QJsonArray.t)
    (nA nB nC : Z) :
  QJsonArray.size A h = Some nA ->
  QJsonArray.size B h = Some nB ->
  QJsonArray.size C h = Some nC ->
  QJsonArray.comparesEqual A A h = Some true /\
  QJsonArray.comparesEqual B A h = QJsonArray.comparesEqual A B h /\
  (QJsonArray.comparesEqual A B h = Some true ->
   QJsonArray.comparesEqual B C h = Some true ->
   QJsonArray.comparesEqual A C h = Some true) /\
  (QJsonArray.comparesEqual A B h = Some true <->
   nA = nB /\
   forall i, 0 <= i < nA -> QJsonArray.at_ A i h = QJsonArray.at_ B i h) /\
  (QJsonArray.comparesEqual A B h = Some false <->
   ~ (nA = nB /\
      forall i, 0 <= i < nA -> QJsonArray.at_ A i h = QJsonArray.at_ B i h)) /\
  (QJsonArray.a A = QJsonArray.a B ->
   QJsonArray.comparesEqual A B h = Some true) /\
  (QJsonArray.isEmpty A h = Some true -> QJsonArray.isEmpty B h = Some true ->
   QJsonArray.comparesEqual A B h = Some true).
Proof.
  intros HsA HsB HsC.
  destruct (size_inv _ _ _ HsA) as (la & HA & ->).
  destruct (size_inv _ _ _ HsB) as (lb & HB & ->).
  destruct (size_inv _ _ _ HsC) as (lc & HC & ->).
  destruct (comparesEqual_contents h A A la la HA HA) as (baa & Haa & Iaa).
  destruct (comparesEqual_contents h A B la lb HA HB) as (bab & Hab & Iab).
  destruct (comparesEqual_contents h B A lb la HB HA) as (bba & Hba & Iba).
  destruct (comparesEqual_contents h B C lb lc HB HC) as (bbc & Hbc & Ibc).
  destruct (comparesEqual_contents h A C la lc HA HC) as (bac & Hac & Iac).
  assert (la = lb <->
          Z.of_nat (length la) = Z.of_nat (length lb) /\
          forall i, 0 <= i < Z.of_nat (length la) ->
                    QJsonArray.at_ A i h = QJsonArray.at_ B i h) as Hext.
  { rewrite value_at_ext. split; intros [Hl Hv]; (split; [lia|]); intros i Hi.
    - by rewrite (at_contents _ _ _ i HA), (at_contents _ _ _ i HB), Hv.
    - specialize (Hv i Hi).
      rewrite (at_contents _ _ _ i HA), (at_contents _ _ _ i HB) in Hv.
      congruence. }
  rewrite Haa, Hab, Hba, Hbc, Hac.
  split; [|split; [|split; [|split; [|split; [|split]]]]].
  - f_equal. by apply Iaa.
  - f_equal. apply Bool.eq_true_iff_eq. rewrite Iab, Iba. split; congruence.
  - intros [= ->] [= ->]. f_equal. apply Iac.
    transitivity lb; [by apply Iab | by apply Ibc].
  - rewrite <- Hext, <- Iab. split; congruence.
  - rewrite <- Hext, <- Iab. destruct bab; split; congruence.
  - intros Heq. f_equal. apply Iab. unfold contents in *.
    rewrite Heq in HA. congruence.
  - rewrite (isEmpty_contents _ _ _ HA), (isEmpty_contents _ _ _ HB).
    intros [= Ea] [= Eb]. bools. f_equal. apply Iab.
    destruct la, lb; simpl in *; try reflexivity; lia.
Qed.

Lemma comparesEqual_equivalence_witness :
  QJsonArray.comparesEqual handle_1 handle_2 store_twice_1_2 = Some true /\
  QJsonArray.comparesEqual handle_2 handle_1 store_twice_1_2 = Some true /\
  QJsonArray.comparesEqual handle_1 QJsonArray.QJsonArray store_twice_1_2
    = Some false.
Proof.
  destruct (comparesEqual_equivalence store_twice_1_2
              handle_1 handle_2 QJsonArray.QJsonArray 2 2 0)
    as (_ & Hsym & _ & Hiff & _); try (vm_compute; reflexivity).
  assert (QJsonArray.comparesEqual handle_1 handle_2 store_twice_1_2
          = Some true) as Heq.
  { apply Hiff. split; [reflexivity|]. intros i Hi.
    assert (i = 0 \/ i = 1) as [-> | ->] by lia; vm_compute; reflexivity. }
  split; [exact Heq|]. split; [by rewrite Hsym|].
  vm_compute. reflexivity.
Defined.

(** C8. A handle without backend and a handle whose backend holds the
    empty sequence read alike: size 0, [isEmpty] true, every [at(i)]
    Undefined, [first()] and [last()] Undefined, the empty iteration; they
    compare equal to each other in both orders, and compare alike with any
    third array. *)
Theorem absent_like_empty (h : Heap) (p : loc) (c : QCborContainerPrivate.t) :
  h !! p = Some c ->
  QCborContainerPrivate.elements c = [] ->
  let E := QJsonArray.Handle (Some p) in
  let N := QJsonArray.Handle None in
  (QJsonArray.size E h = Some 0 /\ QJsonArray.size N h = Some 0) /\
  (QJsonArray.isEmpty E h = Some true /\ QJsonArray.isEmpty N h = Some true) /\
  (forall i, QJsonArray.at_ E i h = Some QJsonValue.Undefined /\
             QJsonArray.at_ N i h = Some QJsonValue.Undefined) /\
  (QJsonArray.first E h = QJsonArray.first N h /\
   QJsonArray.last E h = QJsonArray.last N h) /\
  (QJsonArray.range E h = Some [] /\ QJsonArray.range N h = Some []) /\
  (QJsonArray.comparesEqual E N h = Some true /\
   QJsonArray.comparesEqual N E h = Some true) /\
  (forall X n, QJsonArray.size X h = Some n ->
     QJsonArray.comparesEqual E X h = QJsonArray.comparesEqual N X h /\
     QJsonArray.comparesEqual X E h = QJsonArray.comparesEqual X N h).
Proof.
  intros Hp Hc E N.
  assert (contents h E = Some []) as HE
      by (unfold contents; simpl; by rewrite Hp, <- Hc).
  assert (contents h N = Some []) as HN by reflexivity.
  assert (forall i, QJsonArray.at_ E i h = Some QJsonValue.Undefined /\
                    QJsonArray.at_ N i h = Some QJsonValue.Undefined) as Hat.
  { intros i. rewrite (at_contents _ _ _ i HE), (at_contents _ _ _ i HN).
    by rewrite value_at_outside by (simpl; lia). }
  assert (forall X Y lx, contents h X = Some lx -> contents h Y = Some lx ->
            forall Z lz, contents h Z = Some lz ->
              QJsonArray.comparesEqual X Z h = QJsonArray.comparesEqual Y Z h /\
              QJsonArray.comparesEqual Z X h = QJsonArray.comparesEqual Z Y h)
    as Hcmp.
  { intros X Y lx HX HY Z lz HZ.
    destruct (comparesEqual_contents h X Z lx lz HX HZ) as (b1 & -> & I1).
    destruct (comparesEqual_contents h Y Z lx lz HY HZ) as (b2 & -> & I2).
    destruct (comparesEqual_contents h Z X lz lx HZ HX) as (b3 & -> & I3).
    destruct (comparesEqual_contents h Z Y lz lx HZ HY) as (b4 & -> & I4).
    split; f_equal; apply Bool.eq_true_iff_eq; tauto. }
  split; [|split; [|split; [|split; [|split; [|split]]]]].
  - by rewrite (size_contents _ _ _ HE), (size_contents _ _ _ HN).
  - by rewrite (isEmpty_contents _ _ _ HE), (isEmpty_contents _ _ _ HN).
  - exact Hat.
  - split.
    + unfold QJsonArray.first.
      destruct (Hat 0) as [-> ->]. reflexivity.
    + unfold QJsonArray.last. simpl. unfold load. rewrite Hp. simpl.
      destruct (Hat (QCborContainerPrivate.count c - 1)) as [-> _].
      destruct (Hat 0) as [_ ->]. reflexivity.
  - by rewrite (range_contents _ _ _ HE), (range_contents _ _ _ HN).
  - destruct (comparesEqual_contents h E N [] [] HE HN) as (b1 & -> & I1).
    destruct (comparesEqual_contents h N E [] [] HN HE) as (b2 & -> & I2).
    split; f_equal; tauto.
  - intros X n Hs. destruct (size_inv _ _ _ Hs) as (lx & HX & _).
    by apply (Hcmp E N [] HE HN X lx).
Qed.

Lemma absent_like_empty_witness :
  QJsonArray.comparesEqual handle_1 QJsonArray.QJsonArray store_empty_backend
    = Some true /\
  QJsonArray.range handle_1 store_empty_backend = Some [] /\
  QJsonArray.size handle_1 store_empty_backend = Some 0.
Proof.
  destruct (absent_like_empty store_empty_backend 1%positive
              (QCborContainerPrivate.Container 1 []))
    as ([Hs _] & _ & _ & _ & [Hr _] & [Hc _] & _);
    try (vm_compute; reflexivity).
  split; [exact Hc|]. split; [exact Hr|exact Hs].
Defined.

(** ** Hashing *)

Example sample_hash_depends_on_order :
  QJsonArray.qHashRange sample_combine sample_qHashValue
    [QJsonValue.Double 1; QJsonValue.Double 2] 0 <>
  QJsonArray.qHashRange sample_combine sample_qHashValue
    [QJsonValue.Double 2; QJsonValue.Double 1] 0.
Proof. vm_compute. discriminate. Qed.

(** C9. For any combiner and element hash, [qHash] of an array is the
    left-to-right fold of the combiner over the hashes of its elements in
    index order, starting from the seed; two arrays that compare equal, and
    in particular two handles on one backend, have the same hash for the
    same seed. *)
Theorem qHash_consistent_with_equality (combine : Z -> Z -> Z)
    (qHashValue : QJsonValue.t -> Z) (h : Heap) (A B : QJsonArray.t)
    (nA nB seed : Z) :
  QJsonArray.size A h = Some nA ->
  QJsonArray.size B h = Some nB ->
  (exists vs,
      QJsonArray.range A h = Some vs /\
      QJsonArray.qHash combine qHashValue A seed h =
        Some (fold_left (fun acc v => combine acc (qHashValue v)) vs seed)) /\
  (QJsonArray.comparesEqual A B h = Some true ->
   QJsonArray.qHash combine qHashValue A seed h =
   QJsonArray.qHash combine qHashValue B seed h) /\
  (QJsonArray.a A = QJsonArray.a B ->
   QJsonArray.qHash combine qHashValue A seed h =
   QJsonArray.qHash combine qHashValue B seed h).
Proof.
  intros HsA HsB.
  destruct (size_inv _ _ _ HsA) as (la & HA & ->).
  destruct (size_inv _ _ _ HsB) as (lb & HB & ->).
  unfold QJsonArray.qHash.
  rewrite (range_contents _ _ _ HA), (range_contents _ _ _ HB). simpl.
  split; [|split].
  - eexists. split; reflexivity.
  - intros Heq.
    destruct (comparesEqual_contents h A B la lb HA HB) as (b & Hb & Iff).
    rewrite Hb in Heq. injection Heq as ->.
    destruct Iff as [-> _]; reflexivity.
  - intros Heq. unfold contents in *. rewrite Heq in HA.
    replace la with lb by congruence. reflexivity.
Qed.

Lemma qHash_consistent_with_equality_witness :
  QJsonArray.qHash sample_combine sample_qHashValue handle_1 7
    store_twice_1_2 =
  QJsonArray.qHash sample_combine sample_qHashValue handle_2 7
    store_twice_1_2.
Proof.
  refine (proj1 (proj2 (qHash_consistent_with_equality
                          sample_combine sample_qHashValue
                          store_twice_1_2 handle_1 handle_2 2 2 7 _ _)) _);
    vm_compute; reflexivity.
Defined.

(** ** Move construction *)

(** C10. Move-constructing from a handle that owns its reference completes
    and leaves the store as it was; the moved-from handle has no backend
    (size 0, [isEmpty] true, every [at(i)] Undefined, empty iteration) and
    the new handle points at the backend the source had, so its size,
    [at(i)] and iteration are the ones the source had before. *)
Theorem move_construct_spec (h : Heap) (other : QJsonArray.t) :
  owns h other = true ->
  exists this other',
    QJsonArray.move_construct other h = Some ((this, other'), h) /\
    QJsonArray.a other' = None /\
    QJsonArray.size other' h = Some 0 /\
    QJsonArray.isEmpty other' h = Some true /\
    (forall i, QJsonArray.at_ other' i h = Some QJsonValue.Undefined) /\
    QJsonArray.range other' h = Some [] /\
    QJsonArray.a this = QJsonArray.a other /\
    QJsonArray.size this h = QJsonArray.size other h /\
    (forall i, QJsonArray.at_ this i h = QJsonArray.at_ other i h) /\
    QJsonArray.range this h = QJsonArray.range other h.
Proof.
  intros Ho. destruct other as [[p|]]; unfold owns in Ho;
    simpl in Ho.
  - destruct (h !! p) as [c|] eqn:Hp; [|discriminate]. bools.
    exists (QJsonArray.Handle (Some p)), (QJsonArray.Handle None).
    split; [|by repeat split].
    unfold QJsonArray.move_construct. simpl.
    erewrite bind_run; cycle 1.
    { erewrite bind_run by (apply ref_ref_run; exact Hp). reflexivity. }
    erewrite bind_run; cycle 1.
    { unfold QExplicitlySharedDataPointer.assign.
      rewrite decide_False by discriminate.
      erewrite bind_run by reflexivity.
      erewrite bind_run; [reflexivity|].
      apply release_shared; [apply lookup_insert_eq|]. simpl. lia. }
    simpl. rewrite insert_insert_eq. rewrite Z.add_simpl_r, Container_eta.
    by rewrite insert_id.
  - exists (QJsonArray.Handle None), (QJsonArray.Handle None).
    by repeat split.
Qed.

Lemma move_construct_spec_witness :
  exists this other',
    QJsonArray.move_construct handle_1 store_1_2 =
      Some ((this, other'), store_1_2) /\
    QJsonArray.size other' store_1_2 = Some 0 /\
    QJsonArray.isEmpty other' store_1_2 = Some true /\
    QJsonArray.range this store_1_2 =
      Some [QJsonValue.Double 1; QJsonValue.Double 2].
Proof.
  destruct (move_construct_spec store_1_2 handle_1)
    as (this & other' & Hm & _ & Hs & He & _ & _ & Ha & _ & _ & Hr).
  - vm_compute. reflexivity.
  - exists this, other'. repeat split; assumption.
Defined.

(** * Further properties of the array operations *)

(** ** Reading after an edit *)

Lemma value_at_insert (l : list QCborValue.t) (i j : Z) (e : QCborValue.t) :
  0 <= i <= Z.of_nat (length l) ->
  value_at (take (Z.to_nat i) l ++ e :: drop (Z.to_nat i) l) j =
  if j <? i then value_at l j
  else if j =? i then QJsonPrivate.Value.fromTrustedCbor e
       else value_at l (j - 1).
Proof.
  intros Hi.
  destruct (j =? i) eqn:Eji; bools.
  - subst j. destruct (i <? i) eqn:E; bools; [lia|].
    by destruct (value_at_inserted l i e Hi) as [_ ->].
  - unfold value_at. rewrite length_inserted.
    assert (length (take (Z.to_nat i) l) = Z.to_nat i) as Hlt
        by (rewrite length_take; lia).
    destruct (j <? i) eqn:E; bools.
    + destruct (0 <=? j) eqn:E1; bools; [|reflexivity].
      rewrite lookup_app_l by lia. rewrite lookup_take_lt by lia.
      destruct (j <? Z.of_nat (length l) + 1) eqn:E2,
               (j <? Z.of_nat (length l)) eqn:E3; bools;
        try reflexivity; lia.
    + destruct (0 <=? j) eqn:E1; bools; [|lia].
      destruct (0 <=? j - 1) eqn:E1'; bools; [|lia].
      rewrite lookup_app_r by lia. rewrite Hlt.
      replace (Z.to_nat j - Z.to_nat i)%nat
        with (S (Z.to_nat j - Z.to_nat i - 1)) by lia.
      simpl. rewrite lookup_drop.
      replace (Z.to_nat i + (Z.to_nat j - Z.to_nat i - 1))%nat
        with (Z.to_nat (j - 1)) by lia.
      destruct (j <? Z.of_nat (length l) + 1) eqn:E2,
               (j - 1 <? Z.of_nat (length l)) eqn:E3; bools;
        try reflexivity; lia.
Qed.

Lemma value_at_replace (l : list QCborValue.t) (i j : Z) (e : QCborValue.t) :
  0 <= i < Z.of_nat (length l) ->
  value_at (<[Z.to_nat i := e]> l) j =
  if j =? i then QJsonPrivate.Value.fromTrustedCbor e else value_at l j.
Proof.
  intros Hi. unfold value_at. rewrite length_insert.
  destruct (j =? i) eqn:E; bools.
  - subst j. rewrite list_lookup_insert_eq by lia.
    destruct (0 <=? i) eqn:E1; bools; [|lia].
    destruct (i <? Z.of_nat (length l)) eqn:E2; bools; [reflexivity|lia].
  - destruct (0 <=? j) eqn:E1; bools; [|reflexivity].
    rewrite list_lookup_insert_ne by lia. reflexivity.
Qed.

Lemma last_contents (h : Heap) (this : QJsonArray.t)
    (l : list QCborValue.t) :
  contents h this = Some l ->
  QJsonArray.last this h = Some (value_at l (Z.of_nat (length l) - 1)).
Proof.
  intros Hc. rewrite <- (at_contents h this l _ Hc).
  unfold QJsonArray.last.
  destruct (contents_inv _ _ _ Hc) as [[Ha ->]|(p & c & Ha & Hp & <-)];
    rewrite Ha.
  - simpl. by rewrite !(at_contents _ _ _ _ Hc).
  - unfold load. by rewrite Hp.
Qed.

(** X1. [replace(i, v)] at a valid index completes, keeps the size, makes
    [at(i)] return [v] as given (an Undefined value is stored and read back
    as Undefined: [replace] does not turn it into Null as [insert] does),
    and leaves every other position as it was. *)
Theorem replace_then_at (h : Heap) (this : QJsonArray.t) (n i : Z)
    (v : QJsonValue.t) :
  QJsonArray.size this h = Some n ->
  0 <= i < n ->
  exists this' h',
    QJsonArray.replace this i v h = Some (this', h') /\
    QJsonArray.size this' h' = Some n /\
    QJsonArray.at_ this' i h' = Some v /\
    (forall j, j <> i -> QJsonArray.at_ this' j h' = QJsonArray.at_ this j h).
Proof.
  intros Hs Hi. destruct (size_inv _ _ _ Hs) as (l & Hc & ->).
  destruct (replace_spec h this l i v Hc Hi) as (this' & h' & Hr & Hc' & _).
  exists this', h'. split; [exact Hr|]. split; [|split].
  - rewrite (size_contents _ _ _ Hc'). by rewrite length_insert.
  - rewrite (at_contents _ _ _ i Hc'), value_at_replace by exact Hi.
    rewrite Z.eqb_refl. by rewrite fromTrustedCbor_fromJsonValue.
  - intros j Hj.
    rewrite (at_contents _ _ _ j Hc'), (at_contents _ _ _ j Hc).
    rewrite value_at_replace by exact Hi.
    destruct (j =? i) eqn:E; bools; [lia|reflexivity].
Qed.

Lemma replace_then_at_witness :
  exists this' h',
    QJsonArray.replace handle_1 0 QJsonValue.Undefined store_1_2 =
      Some (this', h') /\
    QJsonArray.size this' h' = Some 2 /\
    QJsonArray.at_ this' 0 h' = Some QJsonValue.Undefined /\
    (forall j, j <> 0 ->
               QJsonArray.at_ this' j h' = QJsonArray.at_ handle_1 j store_1_2).
Proof.
  apply (replace_then_at store_1_2 handle_1 2 0 QJsonValue.Undefined);
    [vm_compute; reflexivity | lia].
Defined.

(** X2. [insert(i, v)] with [0 <= i <= size] keeps every position below
    [i], and every position [j > i] then reads what position [j - 1] read
    before: the elements from [i] on move up by one, in order. *)
Theorem insert_shifts (h : Heap) (this : QJsonArray.t) (n i : Z)
    (v : QJsonValue.t) :
  QJsonArray.size this h = Some n ->
  0 <= i <= n ->
  exists this' h',
    QJsonArray.insert this i v h = Some (this', h') /\
    (forall j, j < i -> QJsonArray.at_ this' j h' = QJsonArray.at_ this j h) /\
    (forall j, i < j ->
               QJsonArray.at_ this' j h' = QJsonArray.at_ this (j - 1) h).
Proof.
  intros Hs Hi. destruct (size_inv _ _ _ Hs) as (l & Hc & ->).
  destruct (insert_spec h this l i v Hc Hi) as (this' & h' & Hr & Hc' & _).
  exists this', h'. split; [exact Hr|].
  split; intros j Hj;
    rewrite (at_contents _ _ _ j Hc'), (at_contents _ _ _ _ Hc);
    rewrite value_at_insert by exact Hi;
    destruct (j <? i) eqn:E1; bools; try lia; try reflexivity.
  destruct (j =? i) eqn:E2; bools; [lia|reflexivity].
Qed.

Lemma insert_shifts_witness :
  exists this' h',
    QJsonArray.insert handle_1 1 (QJsonValue.Bool true) store_1_2 =
      Some (this', h') /\
    (forall j, j < 1 ->
               QJsonArray.at_ this' j h' = QJsonArray.at_ handle_1 j store_1_2) /\
    (forall j, 1 < j ->
               QJsonArray.at_ this' j h' =
               QJsonArray.at_ handle_1 (j - 1) store_1_2).
Proof.
  apply (insert_shifts store_1_2 handle_1 2 1 (QJsonValue.Bool true));
    [vm_compute; reflexivity | lia].
Defined.

(** X3. On an array of size [n], [append(v)] makes the size [n + 1], keeps
    the positions [0 .. n - 1] and makes [last()] the stored value;
    [prepend(v)] makes the size [n + 1], makes [first()] the stored value
    and moves every old position [j] to [j + 1].  The stored value is [v],
    or Null when [v] is Undefined. *)
Theorem append_prepend_ends (h : Heap) (this : QJsonArray.t) (n : Z)
    (v : QJsonValue.t) :
  QJsonArray.size this h = Some n ->
  (exists this' h',
      QJsonArray.append this v h = Some (this', h') /\
      QJsonArray.size this' h' = Some (n + 1) /\
      QJsonArray.last this' h' = Some (stored v) /\
      (forall j, j < n ->
                 QJsonArray.at_ this' j h' = QJsonArray.at_ this j h)) /\
  (exists this' h',
      QJsonArray.prepend this v h = Some (this', h') /\
      QJsonArray.size this' h' = Some (n + 1) /\
      QJsonArray.first this' h' = Some (stored v) /\
      (forall j, 0 <= j ->
                 QJsonArray.at_ this' (j + 1) h' = QJsonArray.at_ this j h)).
Proof.
  intros Hs. destruct (size_inv _ _ _ Hs) as (l & Hc & ->).
  assert (forall i, 0 <= i <= Z.of_nat (length l) ->
            forall this' h',
              contents h' this' =
                Some (take (Z.to_nat i) l
                      ++ QCborValue.fromJsonValue (stored v)
                      :: drop (Z.to_nat i) l) ->
              QJsonArray.size this' h' = Some (Z.of_nat (length l) + 1) /\
              forall j, QJsonArray.at_ this' j h' =
                        Some (if j <? i then value_at l j
                              else if j =? i then stored v
                                   else value_at l (j - 1))) as Hread.
  { intros i Hi this' h' Hc'. split.
    - rewrite (size_contents _ _ _ Hc'). by rewrite length_inserted.
    - intros j. rewrite (at_contents _ _ _ j Hc').
      rewrite value_at_insert by exact Hi.
      by rewrite fromTrustedCbor_fromJsonValue. }
  split.
  - destruct (append_spec h this l v Hc) as (this' & h' & Hr & Hc' & _).
    pose proof Hc' as Hc''.
    rewrite <- (firstn_all l) in Hc'' at 1.
    replace ([QCborValue.fromJsonValue (stored v)])
      with (QCborValue.fromJsonValue (stored v) :: drop (length l) l)
      in Hc'' by (by rewrite drop_all).
    rewrite <- (Nat2Z.id (length l)) in Hc''.
    rewrite Nat2Z.id in Hc'' at 2.
    destruct (Hread (Z.of_nat (length l)) ltac:(lia) this' h') as [Hsz Hat].
    { rewrite Hc''. by rewrite !Nat2Z.id. }
    exists this', h'. split; [exact Hr|]. split; [exact Hsz|]. split.
    + rewrite (last_contents _ _ _ Hc'). rewrite <- (at_contents _ _ _ _ Hc').
      rewrite Hat. rewrite length_app. simpl.
      destruct (_ <? _) eqn:E1; bools; [lia|].
      destruct (_ =? _) eqn:E2; bools; [reflexivity|lia].
    + intros j Hj. rewrite Hat, (at_contents _ _ _ j Hc).
      destruct (j <? Z.of_nat (length l)) eqn:E; bools; [reflexivity|lia].
  - destruct (prepend_spec h this l v Hc) as (this' & h' & Hr & Hc' & _).
    destruct (Hread 0 ltac:(lia) this' h') as [Hsz Hat].
    { rewrite Hc'. simpl. by rewrite drop_0. }
    exists this', h'. split; [exact Hr|]. split; [exact Hsz|]. split.
    + unfold QJsonArray.first. rewrite Hat. reflexivity.
    + intros j Hj. rewrite Hat, (at_contents _ _ _ j Hc).
      destruct (j + 1 <? 0) eqn:E1; bools; [lia|].
      destruct (j + 1 =? 0) eqn:E2; bools; [lia|].
      by replace (j + 1 - 1) with j by lia.
Qed.

Lemma append_prepend_ends_witness :
  (exists this' h',
      QJsonArray.append handle_1 QJsonValue.Undefined store_1_2
        = Some (this', h') /\
      QJsonArray.size this' h' = Some 3 /\
      QJsonArray.last this' h' = Some QJsonValue.Null) /\
  (exists this' h',
      QJsonArray.prepend handle_1 (QJsonValue.Double 0) store_1_2
        = Some (this', h') /\
      QJsonArray.size this' h' = Some 3 /\
      QJsonArray.first this' h' = Some (QJsonValue.Double 0)).
Proof.
  split.
  - destruct (append_prepend_ends store_1_2 handle_1 2 QJsonValue.Undefined)
      as [(t & h' & H1 & H2 & H3 & _) _]; [vm_compute; reflexivity|].
    by exists t, h'.
  - destruct (append_prepend_ends store_1_2 handle_1 2 (QJsonValue.Double 0))
      as [_ (t & h' & H1 & H2 & H3 & _)]; [vm_compute; reflexivity|].
    by exists t, h'.
Defined.

(** ** Round trips *)

Lemma delete_inserted {A : Type} (l : list A) (i : nat) (x : A) :
  (i <= length l)%nat -> delete i (take i l ++ x :: drop i l) = l.
Proof.
  intros Hi.
  assert (length (take i l) = i) as Hlen by (rewrite length_take; lia).
  rewrite <- Hlen at 1. rewrite delete_middle. apply take_drop.
Qed.

(** X4. Inserting at [i] and then removing at [i] gives back the sequence
    of elements the array had, and [takeAt(i)] after the insertion returns
    the stored value ([v], or Null for Undefined) with the same final
    handle and store as [removeAt(i)]. *)
Theorem insert_removeAt_roundtrip (h : Heap) (this : QJsonArray.t)
    (vs : list QJsonValue.t) (i : Z) (v : QJsonValue.t) :
  QJsonArray.range this h = Some vs ->
  0 <= i <= Z.of_nat (length vs) ->
  exists this1 h1 this2 h2,
    QJsonArray.insert this i v h = Some (this1, h1) /\
    QJsonArray.removeAt this1 i h1 = Some (this2, h2) /\
    QJsonArray.takeAt this1 i h1 = Some ((stored v, this2), h2) /\
    QJsonArray.range this2 h2 = Some vs.
Proof.
  intros Hr Hi. destruct (range_inv _ _ _ Hr) as (l & Hc & ->).
  rewrite length_fmap in Hi.
  destruct (insert_spec h this l i v Hc Hi) as (this1 & h1 & Hins & Hc1 & _).
  set (l1 := take (Z.to_nat i) l ++ QCborValue.fromJsonValue (stored v)
             :: drop (Z.to_nat i) l) in *.
  assert (0 <= i < Z.of_nat (length l1)) as Hi1.
  { unfold l1. rewrite length_inserted. lia. }
  destruct (takeAt_removeAt h1 this1 l1 i Hc1 Hi1) as (this2 & h2 & Hrem & Htk).
  destruct (removeAt_spec h1 this1 l1 i Hc1 Hi1)
    as (this2' & h2' & Hrem' & Hc2 & _).
  rewrite Hrem in Hrem'. injection Hrem' as <- <-.
  exists this1, h1, this2, h2. split; [exact Hins|]. split; [exact Hrem|].
  split.
  - rewrite Htk. unfold l1.
    destruct (value_at_inserted l i (QCborValue.fromJsonValue (stored v)) Hi)
      as [_ ->].
    by rewrite fromTrustedCbor_fromJsonValue.
  - rewrite (range_contents _ _ _ Hc2). unfold l1.
    by rewrite delete_inserted by lia.
Qed.

Lemma insert_removeAt_roundtrip_witness :
  exists this1 h1 this2 h2,
    QJsonArray.insert handle_1 1 (QJsonValue.String "x") store_1_2 =
      Some (this1, h1) /\
    QJsonArray.removeAt this1 1 h1 = Some (this2, h2) /\
    QJsonArray.takeAt this1 1 h1 = Some ((QJsonValue.String "x", this2), h2) /\
    QJsonArray.range this2 h2 =
      Some [QJsonValue.Double 1; QJsonValue.Double 2].
Proof.
  apply (insert_removeAt_roundtrip store_1_2 handle_1
           [QJsonValue.Double 1; QJsonValue.Double 2] 1
           (QJsonValue.String "x")); [vm_compute; reflexivity | simpl; lia].
Defined.

(** ** Detaching *)

(** X5. [detach()] on a handle whose backend is allocated returns true and
    leaves the handle as the only holder of its backend (reference count
    exactly 1) with the same elements; the elements of every backend that
    the handle does not point at, or that is shared, are untouched.  When
    the backend already counts one reference, or is absent, handle and
    store do not change at all. *)
Theorem detach_exclusive (h : Heap) (this : QJsonArray.t) (n reserve : Z) :
  QJsonArray.size this h = Some n ->
  exists this' h',
    QJsonArray.detach this reserve h = Some ((true, this'), h') /\
    contents h' this' = contents h this /\
    (forall p, QJsonArray.a this' = Some p ->
               exists c, h' !! p = Some c /\ QCborContainerPrivate.ref c = 1) /\
    frame h h' this /\
    (QJsonArray.a this = None \/
     (exists p c, QJsonArray.a this = Some p /\ h !! p = Some c /\
                  QCborContainerPrivate.ref c = 1) ->
     this' = this /\ h' = h).
Proof.
  intros Hs. destruct (size_inv _ _ _ Hs) as (l & Hc & _).
  destruct (contents_inv _ _ _ Hc) as [[Ha ->]|(p & c & Ha & Hp & <-)].
  - exists this, h. unfold QJsonArray.detach. rewrite Ha.
    split; [reflexivity|]. split; [reflexivity|]. split; [congruence|].
    split; [apply frame_refl|]. done.
  - exists (QJsonArray.Handle (Some (fst (detached h p c)))),
           (snd (detached h p c)).
    pose proof (detached_lookup p c h Hp) as Hd.
    split; [by apply detach_run|]. split; [|split; [|split]].
    + rewrite Hc. unfold contents. simpl. by rewrite Hd.
    + intros q [= <-]. eexists. split; [exact Hd|reflexivity].
    + intros q cq Hq Hor.
      destruct (detached_frame p q c cq h Hp Hq) as (_ & cq' & ?).
      { destruct Hor as [Hor|Hor]; [left; congruence | by right]. }
      by exists cq'.
    + intros [Hn|(p' & c' & Ha' & Hp' & Hr)]; [congruence|].
      assert (p' = p) as -> by congruence.
      assert (c' = c) as -> by congruence.
      unfold detached. rewrite Hr. simpl. split; [|reflexivity].
      destruct this as [d]. simpl in Ha. by rewrite Ha.
Qed.

Lemma detach_exclusive_witness :
  exists this' h',
    QJsonArray.detach handle_1 0 store_shared = Some ((true, this'), h') /\
    contents h' this' = contents store_shared handle_1 /\
    (forall p, QJsonArray.a this' = Some p ->
               exists c, h' !! p = Some c /\ QCborContainerPrivate.ref c = 1).
Proof.
  destruct (detach_exclusive store_shared handle_1 2 0)
    as (t & h' & H1 & H2 & H3 & _); [vm_compute; reflexivity|].
  by exists t, h'.
Defined.

(** ** Emptiness and Undefined *)

(** X6. [isEmpty()] is [size() == 0], as its documentation says, although
    the two functions test the backend differently. *)
Theorem isEmpty_iff_size_zero (h : Heap) (this : QJsonArray.t) (n : Z) :
  QJsonArray.size this h = Some n ->
  QJsonArray.isEmpty this h = Some (n =? 0).
Proof.
  intros Hs. destruct (size_inv _ _ _ Hs) as (l & Hc & ->).
  by apply isEmpty_contents.
Qed.

Lemma isEmpty_iff_size_zero_witness :
  QJsonArray.isEmpty handle_1 store_empty_backend = Some (0 =? 0).
Proof.
  apply (isEmpty_iff_size_zero store_empty_backend handle_1 0).
  vm_compute. reflexivity.
Defined.

Lemma stored_defined (v : QJsonValue.t) : stored v <> QJsonValue.Undefined.
Proof. by destruct v. Qed.

Lemma fromTrustedCbor_undefined (e : QCborValue.t) :
  QJsonPrivate.Value.fromTrustedCbor e = QJsonValue.Undefined ->
  e = QCborValue.Undefined.
Proof. by destruct e. Qed.

(** X7. In an array none of whose elements is Undefined, [at(i)] returns
    Undefined exactly when [i] is out of range: the sentinel then tells
    "absent" from "present". *)
Theorem undefined_means_out_of_range (h : Heap) (this : QJsonArray.t)
    (vs : list QJsonValue.t) (i : Z) :
  QJsonArray.range this h = Some vs ->
  all_defined vs ->
  (QJsonArray.at_ this i h = Some QJsonValue.Undefined <->
   i < 0 \/ Z.of_nat (length vs) <= i).
Proof.
  intros Hr Hall. destruct (range_inv _ _ _ Hr) as (l & Hc & ->).
  rewrite length_fmap. rewrite (at_contents _ _ _ i Hc). split.
  - intros [= Hv]. unfold value_at in Hv.
    destruct (0 <=? i) eqn:E1; bools; [|lia].
    destruct (i <? Z.of_nat (length l)) eqn:E2; bools; [|lia].
    simpl in Hv. exfalso.
    destruct (l !! Z.to_nat i) as [e|] eqn:He;
      [|apply lookup_ge_None in He; lia].
    unfold all_defined in Hall. rewrite Forall_lookup in Hall.
    apply (Hall (Z.to_nat i) (QJsonPrivate.Value.fromTrustedCbor e));
      [|exact Hv].
    by rewrite list_lookup_fmap, He.
  - intros Hi. by rewrite value_at_outside.
Qed.

Lemma undefined_means_out_of_range_witness :
  QJsonArray.at_ handle_1 2 store_1_2 = Some QJsonValue.Undefined <->
  2 < 0 \/ Z.of_nat (length [QJsonValue.Double 1; QJsonValue.Double 2]) <= 2.
Proof.
  apply (undefined_means_out_of_range store_1_2 handle_1
           [QJsonValue.Double 1; QJsonValue.Double 2] 2).
  - vm_compute. reflexivity.
  - repeat constructor; discriminate.
Defined.

(** X8. Arrays stay free of Undefined elements under [insert], [append],
    [prepend], [removeAt], [takeAt], and under [replace] by a value that is
    not Undefined: only [replace(i, Undefined)] can put an Undefined element
    into an array. *)
Theorem mutators_keep_defined (h : Heap) (this : QJsonArray.t)
    (vs : list QJsonValue.t) (op : Mutation) :
  QJsonArray.range this h = Some vs ->
  all_defined vs ->
  admissible op (Z.of_nat (length vs)) = true ->
  stores_defined op = true ->
  exists this' h' vs',
    mutate op this h = Some (this', h') /\
    QJsonArray.range this' h' = Some vs' /\
    all_defined vs'.
Proof.
  intros Hr Hall Hadm Hdef. destruct (range_inv _ _ _ Hr) as (l & Hc & ->).
  rewrite length_fmap in Hadm.
  destruct (mutate_spec h this l op Hc Hadm)
    as (this' & h' & l' & Hrun & Hc' & Heff & _).
  exists this', h', (QJsonPrivate.Value.fromTrustedCbor <$> l').
  split; [exact Hrun|]. split; [by apply range_contents|].
  rewrite Heff. unfold all_defined in *.
  set (vs := QJsonPrivate.Value.fromTrustedCbor <$> l) in *.
  destruct op as [i v|v|v|i|i|i v]; simpl in *.
  - apply Forall_app. split; [by apply Forall_take|].
    constructor; [apply stored_defined | by apply Forall_drop].
  - apply Forall_app. split; [done|].
    constructor; [apply stored_defined | constructor].
  - constructor; [apply stored_defined | done].
  - destruct (_ && _); [by apply Forall_delete | done].
  - destruct (_ && _); [by apply Forall_delete | done].
  - apply Forall_insert; [done|]. intros ->. discriminate.
Qed.

Lemma mutators_keep_defined_witness :
  exists this' h' vs',
    mutate (Insert 1 QJsonValue.Undefined) handle_1 store_1_2 =
      Some (this', h') /\
    QJsonArray.range this' h' = Some vs' /\
    all_defined vs'.
Proof.
  apply (mutators_keep_defined store_1_2 handle_1
           [QJsonValue.Double 1; QJsonValue.Double 2]
           (Insert 1 QJsonValue.Undefined));
    try (vm_compute; reflexivity).
  repeat constructor; discriminate.
Defined.

Example replace_by_undefined_is_read_back :
  exists this' h',
    mutate (Replace 0 QJsonValue.Undefined) handle_1 store_1_2 =
      Some (this', h') /\
    QJsonArray.range this' h' =
      Some [QJsonValue.Undefined; QJsonValue.Double 2].
Proof. do 2 eexists. split; vm_compute; reflexivity. Qed.

(** ** Construction from a list *)

Lemma append_exclusive (h : Heap) (p : loc) (l : list QCborValue.t)
    (v : QJsonValue.t) :
  h !! p = Some (QCborContainerPrivate.Container 1 l) ->
  QJsonArray.append (QJsonArray.Handle (Some p)) v h =
  Some (QJsonArray.Handle (Some p),
        <[p := QCborContainerPrivate.Container
                 1 (l ++ [QCborValue.fromJsonValue (stored v)])]> h).
Proof.
  intros Hp. unfold QJsonArray.append.
  erewrite bind_run; cycle 1.
  { apply read_run. simpl. unfold load. rewrite Hp. reflexivity. }
  erewrite insert_present; [|reflexivity|exact Hp|];
    unfold QCborContainerPrivate.count; simpl; [|lia].
  unfold edited, detached. simpl.
  by rewrite Nat2Z.id, firstn_all, drop_all.
Qed.

Lemma append_each {B : Type} (f : B -> QJsonValue.t) (xs : list B)
    (m : M QJsonArray.t) (h0 h : Heap) (p : loc) (l : list QCborValue.t) :
  m h0 = Some (QJsonArray.Handle (Some p), h) ->
  h !! p = Some (QCborContainerPrivate.Container 1 l) ->
  fold_left (fun m x => let! this := m in QJsonArray.append this (f x)) xs m h0
  = Some (QJsonArray.Handle (Some p),
          <[p := QCborContainerPrivate.Container
                   1 (l ++ ((fun x => QCborValue.fromJsonValue (stored (f x)))
                            <$> xs))]> h).
Proof.
  revert m h l. induction xs as [|x xs IH]; intros m h l Hm Hp; simpl.
  - rewrite app_nil_r. by rewrite insert_id.
  - erewrite (IH _ _ (l ++ [QCborValue.fromJsonValue (stored (f x))])).
    + rewrite insert_insert_eq. by rewrite <- app_assoc.
    + erewrite bind_run by exact Hm. by apply append_exclusive.
    + apply lookup_insert_eq.
Qed.

Lemma append_each_from_empty {B : Type} (f : B -> QJsonValue.t)
    (xs : list B) (h : Heap) :
  exists this h',
    fold_left (fun m x => let! this := m in QJsonArray.append this (f x))
              xs (ret QJsonArray.QJsonArray) h = Some (this, h') /\
    contents h' this =
      Some ((fun x => QCborValue.fromJsonValue (stored (f x))) <$> xs) /\
    owns h' this = true /\
    (forall q cq, h !! q = Some cq -> h' !! q = Some cq) /\
    (xs = [] -> this = QJsonArray.QJsonArray /\ h' = h).
Proof.
  destruct xs as [|x xs].
  - exists QJsonArray.QJsonArray, h. by repeat split.
  - pose proof (fresh_lookup h) as Hf. set (p := fresh (dom h)) in *.
    exists (QJsonArray.Handle (Some p)). eexists.
    split; [|split; [|split; [|split]]].
    + simpl. eapply append_each.
      * erewrite bind_run by reflexivity. unfold QJsonArray.append.
        erewrite bind_run by reflexivity.
        rewrite insert_absent by reflexivity. reflexivity.
      * apply lookup_insert_eq.
    + unfold contents. simpl. by rewrite lookup_insert_eq.
    + unfold owns. simpl. by rewrite lookup_insert_eq.
    + intros q cq Hq. rewrite insert_insert_eq.
      rewrite lookup_insert_ne; [exact Hq|].
      intros Heq. rewrite <- Heq in Hq. fold p in Hq. congruence.
    + discriminate.
Qed.

(** X9. The initializer-list constructor always completes; the new array
    holds the arguments in order, each Undefined argument as Null, its size
    is the number of arguments, it owns its backend, and no backend that
    existed before is changed.  For an empty list the array has no backend
    and nothing is allocated. *)
Theorem from_initializer_list_spec (h : Heap) (args : list QJsonValue.t) :
  exists this h',
    QJsonArray.from_initializer_list args h = Some (this, h') /\
    QJsonArray.range this h' = Some (stored <$> args) /\
    QJsonArray.size this h' = Some (Z.of_nat (length args)) /\
    owns h' this = true /\
    (forall q cq, h !! q = Some cq -> h' !! q = Some cq) /\
    (args = [] -> this = QJsonArray.QJsonArray /\ h' = h).
Proof.
  destruct (append_each_from_empty (fun v => v) args h)
    as (this & h' & Hrun & Hc & Ho & Hfr & Hnil).
  exists this, h'. split; [exact Hrun|]. split; [|split; [|done]].
  - rewrite (range_contents _ _ _ Hc). f_equal.
    rewrite <- list_fmap_compose. apply list_fmap_ext.
    intros i x _. simpl. apply fromTrustedCbor_fromJsonValue.
  - rewrite (size_contents _ _ _ Hc). by rewrite length_fmap.
Qed.

(** X10. [fromStringList] always completes; the new array holds one String
    element per string of the list, in the order of the list, and no
    backend that existed before is changed. *)
Theorem fromStringList_spec (h : Heap) (list : list string) :
  exists this h',
    QJsonArray.fromStringList list h = Some (this, h') /\
    QJsonArray.range this h' = Some (QJsonValue.String <$> list) /\
    QJsonArray.size this h' = Some (Z.of_nat (length list)) /\
    owns h' this = true /\
    (forall q cq, h !! q = Some cq -> h' !! q = Some cq).
Proof.
  destruct (append_each_from_empty QJsonValue.String list h)
    as (this & h' & Hrun & Hc & Ho & Hfr & _).
  exists this, h'. split; [exact Hrun|]. split; [|split; [|done]].
  - rewrite (range_contents _ _ _ Hc). f_equal.
    rewrite <- list_fmap_compose. apply list_fmap_ext.
    intros i x _. reflexivity.
  - rewrite (size_contents _ _ _ Hc). by rewrite length_fmap.
Qed.

(** ** Membership *)

Lemma QJsonValue_eqb_eq (x y : QJsonValue.t) :
  QJsonValue.eqb x y = true <-> x = y.
Proof.
  revert y.
  induction x as [| | b | d | s | vs IH | ms IH] using QJsonValue.nested_ind;
    intros [| | b' | d' | s' | vs' | ms']; simpl;
    try (split; [discriminate | discriminate]); try tauto.
  - rewrite Bool.eqb_true_iff. split; congruence.
  - rewrite Z.eqb_eq. split; congruence.
  - rewrite String.eqb_eq. split; congruence.
  - revert vs'. induction IH as [|x l Hx _ IHl]; intros [|x' l'];
      try (split; [discriminate | discriminate]); [tauto|].
    rewrite andb_true_iff, Hx, IHl. split.
    + intros [-> E]. by inversion E.
    + intros E. inversion E. by subst.
  - revert ms'. induction IH as [|[k x] l Hx _ IHl]; intros [|[k' x'] l'];
      try (split; [discriminate | discriminate]); [tauto|].
    simpl in Hx.
    rewrite !andb_true_iff, String.eqb_eq, Hx, IHl. split.
    + intros [[-> ->] E]. by inversion E.
    + intros E. inversion E. by subst.
Qed.

Lemma contains_loop_spec (h : Heap) (this : QJsonArray.t)
    (l : list QCborValue.t) (value : QJsonValue.t) (n k : nat) :
  contents h this = Some l -> (k + n = length l)%nat ->
  exists b,
    QJsonArray.contains_loop this value (Z.of_nat k) n h = Some b /\
    (b = true <->
     value ∈ (QJsonPrivate.Value.fromTrustedCbor <$> drop k l)).
Proof.
  intros Hc. revert k. induction n as [|n IH]; intros k Hk; simpl.
  - exists false. split; [reflexivity|]. rewrite drop_ge by lia.
    split; [discriminate|]. intros Hin. by apply elem_of_nil in Hin.
  - rewrite (at_contents _ _ _ _ Hc).
    destruct (l !! k) as [e|] eqn:He; [|apply lookup_ge_None in He; lia].
    rewrite (value_at_lookup _ _ _ He). simpl.
    rewrite (drop_S _ _ _ He), fmap_cons.
    destruct (QJsonValue.eqb (QJsonPrivate.Value.fromTrustedCbor e) value)
      eqn:E.
    + apply QJsonValue_eqb_eq in E. exists true. split; [reflexivity|].
      split; [|reflexivity]. intros _. rewrite E. apply list_elem_of_here.
    + replace (Z.of_nat k + 1) with (Z.of_nat (S k)) by lia.
      destruct (IH (S k)) as (b & Hb & Hiff); [lia|].
      exists b. split; [exact Hb|]. rewrite Hiff. rewrite elem_of_cons.
      split; [by right|]. intros [->|Hin]; [|exact Hin].
      assert (QJsonValue.eqb (QJsonPrivate.Value.fromTrustedCbor e)
                (QJsonPrivate.Value.fromTrustedCbor e) = true) as Hrefl
          by (by apply QJsonValue_eqb_eq).
      congruence.
Qed.

Lemma contains_range (h : Heap) (this : QJsonArray.t)
    (vs : list QJsonValue.t) (value : QJsonValue.t) :
  QJsonArray.range this h = Some vs ->
  exists b,
    QJsonArray.contains this value h = Some b /\ (b = true <-> value ∈ vs).
Proof.
  intros Hr. destruct (range_inv _ _ _ Hr) as (l & Hc & ->).
  unfold QJsonArray.contains. rewrite (size_contents _ _ _ Hc). simpl.
  rewrite Nat2Z.id. change 0 with (Z.of_nat 0).
  destruct (contains_loop_spec h this l value (length l) 0 Hc)
    as (b & Hb & Hiff); [lia|].
  rewrite drop_0 in Hiff. by exists b.
Qed.

(** X11. [contains(value)] always returns on an array whose backend is
    allocated, and returns true exactly when [value] is one of the elements
    of the array; in particular it is false on an empty array. *)
Theorem contains_spec (h : Heap) (this : QJsonArray.t)
    (vs : list QJsonValue.t) (value : QJsonValue.t) :
  QJsonArray.range this h = Some vs ->
  exists b,
    QJsonArray.contains this value h = Some b /\
    (b = true <-> value ∈ vs) /\
    (vs = [] -> b = false).
Proof.
  intros Hr.
  destruct (contains_range h this vs value Hr) as (b & Hb & Hiff).
  exists b. split; [exact Hb|]. split; [exact Hiff|].
  intros Hnil. rewrite Hnil in Hiff. destruct b; [|reflexivity].
  destruct Hiff as [Hin _]. specialize (Hin eq_refl).
  by apply elem_of_nil in Hin.
Qed.

Lemma contains_spec_witness :
  exists b,
    QJsonArray.contains handle_1 (QJsonValue.Double 2) store_1_2 = Some b /\
    (b = true <->
     QJsonValue.Double 2 ∈ [QJsonValue.Double 1; QJsonValue.Double 2]).
Proof.
  destruct (contains_spec store_1_2 handle_1
              [QJsonValue.Double 1; QJsonValue.Double 2]
              (QJsonValue.Double 2)) as (b & Hb & Hiff & _).
  - vm_compute. reflexivity.
  - by exists b.
Defined.

(** X12. After [insert(i, v)] the array contains the stored value ([v], or
    Null when [v] is Undefined), and still contains every value it
    contained before. *)
Theorem contains_after_insert (h : Heap) (this : QJsonArray.t) (n i : Z)
    (v : QJsonValue.t) :
  QJsonArray.size this h = Some n ->
  0 <= i <= n ->
  exists this' h',
    QJsonArray.insert this i v h = Some (this', h') /\
    QJsonArray.contains this' (stored v) h' = Some true /\
    (forall w, QJsonArray.contains this w h = Some true ->
               QJsonArray.contains this' w h' = Some true).
Proof.
  intros Hs Hi. destruct (size_inv _ _ _ Hs) as (l & Hc & ->).
  destruct (insert_spec h this l i v Hc Hi) as (this' & h' & Hr & Hc' & _).
  pose proof (range_contents _ _ _ Hc) as Hrg.
  pose proof (range_contents _ _ _ Hc') as Hrg'.
  rewrite fmap_app, fmap_cons, fromTrustedCbor_fromJsonValue in Hrg'.
  exists this', h'. split; [exact Hr|]. split.
  - destruct (contains_range h' this' _ (stored v) Hrg') as (b & -> & Hiff).
    f_equal. apply Hiff. rewrite elem_of_app. right. apply list_elem_of_here.
  - intros w Hw.
    destruct (contains_range h this _ w Hrg) as (b & Hb & Hiff).
    destruct (contains_range h' this' _ w Hrg') as (b' & -> & Hiff').
    rewrite Hb in Hw. injection Hw as ->.
    f_equal. apply Hiff'.
    destruct Hiff as [Hin _]. specialize (Hin eq_refl).
    rewrite <- (take_drop (Z.to_nat i) l), fmap_app in Hin.
    rewrite elem_of_app in Hin. rewrite elem_of_app, elem_of_cons.
    tauto.
Qed.

Lemma contains_after_insert_witness :
  exists this' h',
    QJsonArray.insert handle_1 2 QJsonValue.Undefined store_1_2 =
      Some (this', h') /\
    QJsonArray.contains this' QJsonValue.Null h' = Some true /\
    (forall w, QJsonArray.contains handle_1 w store_1_2 = Some true ->
               QJsonArray.contains this' w h' = Some true).
Proof.
  apply (contains_after_insert store_1_2 handle_1 2 2 QJsonValue.Undefined);
    [vm_compute; reflexivity | lia].
Defined.

(** ** Lifetime of a backend *)

Lemma release_last (p : loc) (c : QCborContainerPrivate.t) (h : Heap) :
  h !! p = Some c -> QCborContainerPrivate.ref c = 1 ->
  QExplicitlySharedDataPointer.release (Some p) h = Some (tt, delete p h).
Proof.
  intros Hp Hc.
  unfold QExplicitlySharedDataPointer.release,
    QExplicitlySharedDataPointer.ref_deref.
  unfold bind at 1. unfold bind at 1.
  rewrite (read_run _ h c) by exact Hp.
  unfold bind at 1. erewrite store_run by exact Hp.
  unfold ret at 1. rewrite Hc. simpl.
  unfold free. rewrite lookup_insert_eq. by rewrite delete_insert_eq.
Qed.

(** X13. Destroying a handle that owns its reference always completes and
    touches no other backend.  When the backend counted only this
    reference it is freed; otherwise it stays with the same elements and
    one reference less, so the remaining holders read what they read
    before. *)
Theorem destroy_spec (h : Heap) (this : QJsonArray.t) (p : loc)
    (c : QCborContainerPrivate.t) :
  QJsonArray.a this = Some p ->
  h !! p = Some c ->
  1 <= QCborContainerPrivate.ref c ->
  exists h',
    QJsonArray.destroy this h = Some (tt, h') /\
    (forall q, q <> p -> h' !! q = h !! q) /\
    (QCborContainerPrivate.ref c = 1 -> h' !! p = None) /\
    (1 < QCborContainerPrivate.ref c ->
     h' !! p = Some (QCborContainerPrivate.Container
                       (QCborContainerPrivate.ref c - 1)
                       (QCborContainerPrivate.elements c)) /\
     forall other, QJsonArray.a other = Some p ->
                   owns h' other = true /\
                   contents h' other = contents h other).
Proof.
  intros Ha Hp Hr. unfold QJsonArray.destroy. rewrite Ha.
  destruct (decide (QCborContainerPrivate.ref c = 1)) as [H1|H1].
  - exists (delete p h). split; [by apply (release_last p c)|].
    split; [|split].
    + intros q Hq. by rewrite lookup_delete_ne.
    + intros _. apply lookup_delete_eq.
    + lia.
  - eexists. split; [by apply release_shared|]. split; [|split].
    + intros q Hq. by rewrite lookup_insert_ne.
    + done.
    + intros _. split; [apply lookup_insert_eq|].
      intros other Ho. unfold owns, contents. rewrite Ho.
      rewrite lookup_insert_eq, Hp. simpl. split; [|reflexivity].
      apply Z.leb_le. lia.
Qed.

Lemma destroy_spec_witness :
  exists h',
    QJsonArray.destroy handle_1 store_1_2 = Some (tt, h') /\
    h' !! 1%positive = None.
Proof.
  destruct (destroy_spec store_1_2 handle_1 1%positive
              (QCborContainerPrivate.Container
                 1 [QCborValue.Double 1; QCborValue.Double 2]))
    as (h' & Hd & _ & Hfree & _);
    [reflexivity | vm_compute; reflexivity | simpl; lia |].
  exists h'. split; [exact Hd|]. by apply Hfree.
Defined.

(** X14. Copying a handle that owns its reference and then destroying the
    copy gives back exactly the store there was before the copy. *)
Theorem copy_destroy_roundtrip (h : Heap) (A : QJsonArray.t) :
  owns h A = true ->
  exists B h1,
    QJsonArray.copy_construct A h = Some (B, h1) /\
    QJsonArray.a B = QJsonArray.a A /\
    QJsonArray.destroy B h1 = Some (tt, h).
Proof.
  intros Ho. unfold owns in Ho.
  unfold QJsonArray.copy_construct, QJsonArray.destroy.
  destruct (QJsonArray.a A) as [p|] eqn:Ha.
  - destruct (h !! p) as [c|] eqn:Hp; [|discriminate]. bools.
    exists (QJsonArray.Handle (Some p)),
           (<[p := QCborContainerPrivate.Container
                     (QCborContainerPrivate.ref c + 1)
                     (QCborContainerPrivate.elements c)]> h).
    split; [|split].
    + unfold QExplicitlySharedDataPointer.copy.
      erewrite bind_run; [reflexivity|].
      erewrite bind_run; [reflexivity|]. by apply ref_ref_run.
    + reflexivity.
    + change (QJsonArray.a (QJsonArray.Handle (Some p))) with (Some p).
      erewrite release_shared;
        [|apply lookup_insert_eq | simpl; lia].
      simpl. rewrite insert_insert_eq, Z.add_simpl_r, Container_eta.
      by rewrite insert_id.
  - exists (QJsonArray.Handle None), h. by repeat split.
Qed.

Lemma copy_destroy_roundtrip_witness :
  exists B h1,
    QJsonArray.copy_construct handle_1 store_1_2 = Some (B, h1) /\
    QJsonArray.a B = QJsonArray.a handle_1 /\
    QJsonArray.destroy B h1 = Some (tt, store_1_2).
Proof.
  apply (copy_destroy_roundtrip store_1_2 handle_1). vm_compute. reflexivity.
Defined.

Lemma release_run (p : loc) (c : QCborContainerPrivate.t) (h : Heap) :
  h !! p = Some c ->
  exists h',
    QExplicitlySharedDataPointer.release (Some p) h = Some (tt, h') /\
    forall q, q <> p -> h' !! q = h !! q.
Proof.
  intros Hp.
  destruct (decide (QCborContainerPrivate.ref c = 1)) as [H1|H1].
  - exists (delete p h). split; [by apply (release_last p c)|].
    intros q Hq. by rewrite lookup_delete_ne.
  - eexists. split; [by apply release_shared|].
    intros q Hq. by rewrite lookup_insert_ne.
Qed.

Lemma assign_to (d : option loc) (q : loc) (cq : QCborContainerPrivate.t)
    (h h' : Heap) :
  d <> Some q -> h !! q = Some cq ->
  QExplicitlySharedDataPointer.release d
    (<[q := QCborContainerPrivate.Container
              (QCborContainerPrivate.ref cq + 1)
              (QCborContainerPrivate.elements cq)]> h) = Some (tt, h') ->
  QExplicitlySharedDataPointer.assign d (Some q) h = Some (Some q, h').
Proof.
  intros Hne Hq Hrel. unfold QExplicitlySharedDataPointer.assign.
  rewrite decide_False by congruence.
  erewrite bind_run by (apply ref_ref_run; exact Hq).
  by erewrite bind_run by exact Hrel.
Qed.

Lemma assign_nullptr (p : loc) (h h' : Heap) :
  QExplicitlySharedDataPointer.release (Some p) h = Some (tt, h') ->
  QExplicitlySharedDataPointer.assign (Some p) None h = Some (None, h').
Proof.
  intros Hrel. unfold QExplicitlySharedDataPointer.assign.
  rewrite decide_False by discriminate.
  erewrite bind_run by reflexivity.
  by erewrite bind_run by exact Hrel.
Qed.

(** X15. Copy assignment [this = other] between handles that own their
    references always completes; afterwards [this] points at the backend of
    [other] and reads what [other] read, [other] reads what it read before,
    and both own their reference.  Assigning a handle the backend it
    already has changes nothing. *)
Theorem assign_spec (h : Heap) (this other : QJsonArray.t) :
  owns h this = true ->
  owns h other = true ->
  exists this' h',
    QJsonArray.assign this other h = Some (this', h') /\
    QJsonArray.a this' = QJsonArray.a other /\
    contents h' this' = contents h other /\
    contents h' other = contents h other /\
    owns h' this' = true /\
    owns h' other = true /\
    (QJsonArray.a this = QJsonArray.a other -> h' = h).
Proof.
  intros Ht Ho. unfold QJsonArray.assign.
  destruct (decide (QJsonArray.a other = QJsonArray.a this)) as [Heq|Hne].
  { exists (QJsonArray.Handle (QJsonArray.a this)), h.
    unfold QExplicitlySharedDataPointer.assign.
    rewrite decide_True by exact Heq.
    unfold owns, contents in *. simpl. rewrite <- Heq.
    by repeat split. }
  unfold owns, contents in *.
  destruct (QJsonArray.a other) as [q|] eqn:Hao;
    destruct (QJsonArray.a this) as [p|] eqn:Hat; try congruence.
  - destruct (h !! q) as [cq|] eqn:Hq; [|discriminate].
    destruct (h !! p) as [cp|] eqn:Hp; [|discriminate]. bools.
    assert (p <> q) as Hpq by congruence.
    set (h1 := <[q := QCborContainerPrivate.Container
                         (QCborContainerPrivate.ref cq + 1)
                         (QCborContainerPrivate.elements cq)]> h).
    destruct (release_run p cp h1) as (h' & Hrel & Hoth).
    { unfold h1. by rewrite lookup_insert_ne. }
    exists (QJsonArray.Handle (Some q)), h'.
    assert (h' !! q = Some (QCborContainerPrivate.Container
                              (QCborContainerPrivate.ref cq + 1)
                              (QCborContainerPrivate.elements cq))) as Hq'.
    { rewrite Hoth by congruence. unfold h1. apply lookup_insert_eq. }
    split.
    { by erewrite bind_run by
        (eapply assign_to; [congruence | exact Hq | exact Hrel]). }
    simpl. rewrite Hq'. simpl.
    repeat split; try (apply Z.leb_le; lia). congruence.
  - destruct (h !! q) as [cq|] eqn:Hq; [|discriminate]. bools.
    do 2 eexists. split.
    { erewrite bind_run by (apply assign_null; exact Hq). reflexivity. }
    simpl. rewrite lookup_insert_eq. simpl.
    repeat split; try (apply Z.leb_le; lia). congruence.
  - destruct (h !! p) as [cp|] eqn:Hp; [|discriminate].
    destruct (release_run p cp h Hp) as (h' & Hrel & _).
    exists (QJsonArray.Handle None), h'. split.
    { by erewrite bind_run by (apply assign_nullptr; exact Hrel). }
    simpl. repeat split. congruence.
Qed.

Lemma assign_spec_witness :
  exists this' h',
    QJsonArray.assign handle_2 handle_1 store_twice_1_2 = Some (this', h') /\
    QJsonArray.a this' = QJsonArray.a handle_1 /\
    contents h' this' = contents store_twice_1_2 handle_1.
Proof.
  destruct (assign_spec store_twice_1_2 handle_2 handle_1)
    as (t & h' & H1 & H2 & H3 & _); try (vm_compute; reflexivity).
  by exists t, h'.
Defined.

(** ** Hashing and equality across edits *)

(** X16. For any combiner and element hash, the hash of an array after
    [append(v)] is the combiner applied to the hash the array had before
    and the hash of the stored value; the hash of an empty array is the
    seed. *)
Theorem qHash_append (combine : Z -> Z -> Z)
    (qHashValue : QJsonValue.t -> Z) (h : Heap) (this : QJsonArray.t)
    (n seed : Z) (v : QJsonValue.t) :
  QJsonArray.size this h = Some n ->
  exists this' h' x,
    QJsonArray.append this v h = Some (this', h') /\
    QJsonArray.qHash combine qHashValue this seed h = Some x /\
    QJsonArray.qHash combine qHashValue this' seed h' =
      Some (combine x (qHashValue (stored v))) /\
    (n = 0 -> x = seed).
Proof.
  intros Hs. destruct (size_inv _ _ _ Hs) as (l & Hc & ->).
  destruct (append_spec h this l v Hc) as (this' & h' & Hr & Hc' & _).
  exists this', h'. eexists. split; [exact Hr|].
  unfold QJsonArray.qHash.
  rewrite (range_contents _ _ _ Hc), (range_contents _ _ _ Hc'). simpl.
  split; [reflexivity|]. split.
  - unfold QJsonArray.qHashRange. rewrite fmap_app, fold_left_app. simpl.
    by rewrite fromTrustedCbor_fromJsonValue.
  - intros Hn. destruct l; [reflexivity | simpl in Hn; lia].
Qed.

Lemma qHash_append_witness :
  exists this' h' x,
    QJsonArray.append handle_1 (QJsonValue.Double 3) store_1_2 =
      Some (this', h') /\
    QJsonArray.qHash sample_combine sample_qHashValue handle_1 7 store_1_2 =
      Some x /\
    QJsonArray.qHash sample_combine sample_qHashValue this' 7 h' =
      Some (sample_combine x 3).
Proof.
  destruct (qHash_append sample_combine sample_qHashValue store_1_2 handle_1
              2 7 (QJsonValue.Double 3))
    as (t & h' & x & H1 & H2 & H3 & _); [vm_compute; reflexivity|].
  by exists t, h', x.
Defined.

(** X17. Take a handle [A] that owns its reference, copy it, append a value
    to the copy and remove that value again.  After the append the two
    arrays compare unequal; after the removal they compare equal again,
    although the copy now has a backend of its own: equality then goes by
    the elements, not by the backend. *)
Theorem copy_append_removeAt_equal (h : Heap) (A : QJsonArray.t) (n : Z)
    (v : QJsonValue.t) :
  owns h A = true ->
  QJsonArray.size A h = Some n ->
  exists B h1 B1 h2 B2 h3,
    QJsonArray.copy_construct A h = Some (B, h1) /\
    QJsonArray.comparesEqual A B h1 = Some true /\
    QJsonArray.append B v h1 = Some (B1, h2) /\
    QJsonArray.comparesEqual A B1 h2 = Some false /\
    QJsonArray.removeAt B1 n h2 = Some (B2, h3) /\
    QJsonArray.comparesEqual A B2 h3 = Some true /\
    QJsonArray.a B2 <> QJsonArray.a A.
Proof.
  intros Ho Hs. destruct (size_inv _ _ _ Hs) as (l & Hc & ->).
  destruct (copy_construct_spec h A l Ho Hc) as (h1 & Hcopy & Hc1 & Hshared).
  set (B := QJsonArray.Handle (QJsonArray.a A)) in *.
  assert (contents h1 B = Some l) as HcB by exact Hc1.
  set (e := QCborValue.fromJsonValue (stored v)).
  destruct (append_spec h1 B l v HcB) as (B1 & h2 & Happ & Hc2 & Ho2 & Hfr2).
  fold e in Hc2.
  assert (contents h2 A = Some l) as HcA2.
  { apply (frame_contents h1 h2 B A l Hfr2 Hc1).
    intros p c Ha Hp. right. by eapply Hshared. }
  assert (QJsonArray.a B1 <> QJsonArray.a A) as Hne1.
  { intros Heq. unfold contents in Hc2, HcA2. rewrite Heq in Hc2.
    rewrite HcA2 in Hc2. injection Hc2 as Hl.
    apply (f_equal length) in Hl. rewrite length_app in Hl. simpl in Hl. lia. }
  assert (0 <= Z.of_nat (length l) < Z.of_nat (length (l ++ [e]))) as Hi
      by (rewrite length_app; simpl; lia).
  destruct (removeAt_spec h2 B1 (l ++ [e]) _ Hc2 Hi)
    as (B2 & h3 & Hrem & Hc3 & Ho3 & Hfr3).
  rewrite Nat2Z.id in Hc3.
  replace (delete (length l) (l ++ [e])) with l in Hc3
    by (by rewrite delete_middle, app_nil_r).
  assert (contents h3 A = Some l) as HcA3.
  { apply (frame_contents h2 h3 B1 A l Hfr3 HcA2).
    intros p c Ha Hp. left. congruence. }
  assert (QJsonArray.a B2 <> QJsonArray.a A) as Hne2.
  { destruct (contents_inv _ _ _ Hc2) as [[_ Hnil]|(p1 & c1 & Hb1 & Hp1 & He1)];
      [destruct l; discriminate|].
    rewrite (removeAt_inside h2 B1 p1 c1 _ Hb1 Hp1) in Hrem; cycle 1.
    { unfold QCborContainerPrivate.count. rewrite He1. exact Hi. }
    injection Hrem as <- _. unfold edited. simpl.
    destruct (contents_inv _ _ _ HcA2) as [[Ha _]|(p & c & Ha & Hp & _)];
      rewrite Ha; [discriminate|].
    destruct (detached_frame p1 p c1 c h2 Hp1 Hp) as [Hne _];
      [left; congruence | congruence]. }
  exists B, h1, B1, h2, B2, h3.
  split; [exact Hcopy|]. split.
  { unfold QJsonArray.comparesEqual. by rewrite decide_True. }
  split; [exact Happ|]. split.
  { destruct (comparesEqual_contents h2 A B1 l (l ++ [e]) HcA2 Hc2)
      as (b & -> & Hiff).
    f_equal. destruct b; [|reflexivity].
    destruct Hiff as [Hl _]. specialize (Hl eq_refl).
    apply (f_equal length) in Hl. rewrite length_app in Hl. simpl in Hl. lia. }
  split; [exact Hrem|]. split; [|exact Hne2].
  destruct (comparesEqual_contents h3 A B2 l l HcA3 Hc3) as (b & -> & Hiff).
  f_equal. by apply Hiff.
Qed.

Lemma copy_append_removeAt_equal_witness :
  exists B h1 B1 h2 B2 h3,
    QJsonArray.copy_construct handle_1 store_1_2 = Some (B, h1) /\
    QJsonArray.comparesEqual handle_1 B h1 = Some true /\
    QJsonArray.append B (QJsonValue.Double 3) h1 = Some (B1, h2) /\
    QJsonArray.comparesEqual handle_1 B1 h2 = Some false /\
    QJsonArray.removeAt B1 2 h2 = Some (B2, h3) /\
    QJsonArray.comparesEqual handle_1 B2 h3 = Some true /\
    QJsonArray.a B2 <> QJsonArray.a handle_1.
Proof.
  apply (copy_append_removeAt_equal store_1_2 handle_1 2
           (QJsonValue.Double 3)); vm_compute; reflexivity.
Defined.

Lemma fromJsonValue_inj (x y : QJsonValue.t) :
  QCborValue.fromJsonValue x = QCborValue.fromJsonValue y -> x = y.
Proof.
  intros H. rewrite <- (fromTrustedCbor_fromJsonValue x),
    <- (fromTrustedCbor_fromJsonValue y). by rewrite H.
Qed.

(** X18. Two arrays built one after the other from initializer lists have
    backends of their own, and compare equal exactly when the lists agree
    element by element once every Undefined is read as Null; so [{Undefined}]
    and [{Null}] build equal arrays. *)
Theorem initializer_lists_equal (h : Heap) (args1 args2 : list QJsonValue.t) :
  exists A h1 B h2 b,
    QJsonArray.from_initializer_list args1 h = Some (A, h1) /\
    QJsonArray.from_initializer_list args2 h1 = Some (B, h2) /\
    QJsonArray.comparesEqual A B h2 = Some b /\
    (b = true <-> stored <$> args1 = stored <$> args2).
Proof.
  destruct (append_each_from_empty (fun v => v) args1 h)
    as (A & h1 & HA & HcA & _ & _ & _).
  destruct (append_each_from_empty (fun v => v) args2 h1)
    as (B & h2 & HB & HcB & _ & Hkeep & _).
  assert (contents h2 A =
          Some ((fun x => QCborValue.fromJsonValue (stored x)) <$> args1))
    as HcA2.
  { destruct (contents_inv _ _ _ HcA) as [[Ha Hnil]|(p & c & Ha & Hp & He)];
      unfold contents; rewrite Ha.
    - by rewrite Hnil.
    - rewrite (Hkeep p c Hp). simpl. by rewrite He. }
  destruct (comparesEqual_contents h2 A B _ _ HcA2 HcB) as (b & Hb & Hiff).
  exists A, h1, B, h2, b. split; [exact HA|]. split; [exact HB|].
  split; [exact Hb|]. rewrite Hiff.
  rewrite !(list_fmap_compose stored QCborValue.fromJsonValue).
  split; [|by intros ->].
  intros Heq. apply list_eq. intros i.
  apply (f_equal (fun l => l !! i)) in Heq.
  rewrite !list_lookup_fmap in Heq. rewrite !list_lookup_fmap.
  destruct (args1 !! i) as [x|], (args2 !! i) as [y|]; simpl in *;
    try discriminate; [|reflexivity].
  injection Heq as Heq. f_equal. by apply fromJsonValue_inj.
Qed.

Example undefined_and_null_lists_equal :
  exists A h1 B h2,
    QJsonArray.from_initializer_list [QJsonValue.Undefined] ∅ = Some (A, h1) /\
    QJsonArray.from_initializer_list [QJsonValue.Null] h1 = Some (B, h2) /\
    QJsonArray.comparesEqual A B h2 = Some true.
Proof. do 4 eexists. repeat split; vm_compute; reflexivity. Qed.
